(** * toil.fileStore.fileStore: a shallow embedding

    The worker-side file-staging layer of Toil (src/toil/fileStore/fileStore.py):
    [WriteWatchingStream], [FileID], [DeferredFunction] and the concrete
    members of the abstract class [FileStore] ([writeGlobalFileStream],
    [importFile], [exportFile], [_StateFile], [_runDeferredFunctions],
    [_pidExists]).

    Python code that raises and mutates is embedded in a state-and-exception
    monad over an explicit world; calls into other packages (os, dill, logging,
    the job store, toil.resource) are parameters of the embedding. *)

From stdpp Require Import gmap strings list fin_maps.
From Stdlib Require Import ZArith Lia.

Open Scope Z_scope.

(** ** Python exceptions and the state-and-exception monad *)

(** The exception classes the file can raise or let through.  [Exception]
    stands for whatever user code raises. *)
Inductive exn : Type :=
| AssertionError
| NotImplementedError
| AttributeError (attr : string)
| TypeError (msg : string)
| OSError (errno : Z)
| IOError (errno : Z)
| EOFError
| UnpicklingError (msg : string)
| PicklingError (msg : string)
| Exception (msg : string).

(** errno values (Linux, errno.h). *)
Definition EPERM : Z := 1.
Definition ENOENT : Z := 2.
Definition ESRCH : Z := 3.
Definition EIO : Z := 5.

Inductive result (A : Type) : Type :=
| Return (a : A)
| Raise (e : exn).
Arguments Return {A} a.
Arguments Raise {A} e.

(** A statement run in world [w] leaves a world behind, whether it returns
    or raises. *)
Definition M (W A : Type) : Type := W -> W * result A.

Definition ret {W A} (a : A) : M W A := fun w => (w, Return a).

Definition raise {W A} (e : exn) : M W A := fun w => (w, Raise e).

Definition bind {W A B} (m : M W A) (k : A -> M W B) : M W B :=
  fun w =>
    match m w with
    | (w', Return a) => k a w'
    | (w', Raise e) => (w', Raise e)
    end.

Declare Scope py_scope.
Delimit Scope py_scope with py.
Notation "x <- m ;; k" := (bind m (fun x => k))
  (at level 100, m at next level, right associativity) : py_scope.
Notation "m ;; k" := (bind m (fun _ => k))
  (at level 100, right associativity) : py_scope.
Open Scope py_scope.

(** [assert cond]. *)
Definition assert_ {W} (cond : bool) : M W unit :=
  if cond then ret tt else raise AssertionError.

(** [try: body / except <clause> as err: handler / else: orelse].  The
    clause is [handler]'s domain: [None] means the exception does not match
    it and propagates.  Exceptions of [orelse] are not caught. *)
Definition try_except_else {W A B} (body : M W A)
    (handler : exn -> option (M W B)) (orelse : A -> M W B) : M W B :=
  fun w =>
    match body w with
    | (w', Return a) => orelse a w'
    | (w', Raise e) =>
        match handler e with
        | Some h => h w'
        | None => (w', Raise e)
        end
    end.

(** [for x in xs: body x]. *)
Fixpoint for_ {W A} (xs : list A) (body : A -> M W unit) : M W unit :=
  match xs with
  | [] => ret tt
  | x :: xs' => body x ;; for_ xs' body
  end.

(** Lift a computation on a component of the world. *)
Definition lift {W E A} (get : W -> E) (set : E -> W -> W) (m : M E A) : M W A :=
  fun w => let '(e', r) := m (get w) in (set e' w, r).

(** Python [bytes]: a chunk of data handed to a stream. *)
Abbreviation bytes := (list Byte.byte).

(** [len(data)]. *)
Definition len {A} (data : list A) : Z := Z.of_nat (length data).

(** ** FileStore._pidExists *)

Section PidExists.
Context {W : Type}.

(** [os.kill(pid, sig)]. *)
Variable os_kill : Z -> Z -> M W unit.

Definition _pidExists (pid : Z) : M W bool :=
  assert_ (0 <? pid) ;;
  try_except_else (os_kill pid 0)
    (fun err =>
       match err with
       | OSError errno =>
           Some (if errno =? ESRCH then ret false else raise err)
       | _ => None
       end)
    (fun _ => ret true).
End PidExists.

(** ** class WriteWatchingStream *)

(** A writable file object: what [WriteWatchingStream] calls on its backing
    stream. *)
Record Stream (W : Type) : Type := {
  stream_write : bytes -> M W unit;
  stream_flush : M W unit;
  stream_close : M W unit
}.
Arguments stream_write {W} _ _.
Arguments stream_flush {W} _.
Arguments stream_close {W} _.

Record WriteWatchingStream (W : Type) : Type := {
  backingStream : Stream W;
  writeListeners : list (Z -> M W unit)
}.
Arguments backingStream {W} _.
Arguments writeListeners {W} _.

Section WriteWatching.
Context {W : Type}.

(** [WriteWatchingStream(backingStream)]: no write listeners yet. *)
Definition WriteWatchingStream__init__ (backing : Stream W) : WriteWatchingStream W :=
  {| backingStream := backing; writeListeners := [] |}.

(** [self.writeListeners.append(listener)]; the updated object is
    passed on explicitly. *)
Definition onWrite (self : WriteWatchingStream W) (listener : Z -> M W unit)
    : WriteWatchingStream W :=
  {| backingStream := backingStream self;
     writeListeners := writeListeners self ++ [listener] |}.

Definition write (self : WriteWatchingStream W) (data : bytes) : M W unit :=
  stream_write (backingStream self) data ;;
  for_ (writeListeners self) (fun listener => listener (len data)).

Definition writelines (self : WriteWatchingStream W) (datas : list bytes) : M W unit :=
  for_ datas (fun data => write self data).

Definition flush (self : WriteWatchingStream W) : M W unit :=
  stream_flush (backingStream self).

Definition close (self : WriteWatchingStream W) : M W unit :=
  stream_close (backingStream self).
End WriteWatching.

(** What a caller does with a stream it was handed. *)
Inductive stream_call : Type :=
| CallWrite (data : bytes)
| CallWritelines (datas : list bytes).

Definition call_stream {W} (s : WriteWatchingStream W) (c : stream_call) : M W unit :=
  match c with
  | CallWrite data => write s data
  | CallWritelines datas => writelines s datas
  end.

(** The chunks a sequence of calls passes down, in order. *)
Definition chunks_of (calls : list stream_call) : list bytes :=
  flat_map (fun c => match c with
                     | CallWrite data => [data]
                     | CallWritelines datas => datas
                     end) calls.

(** ** class FileID(str) *)

(** The string value (set by [__new__] from [fileStoreID]) and the [size]
    attribute (set by [__init__]). *)
Record FileID : Type := {
  fileStoreID : string;
  size : Z
}.

(** Instances of [str]: plain strings and instances of the subclass. *)
Inductive pystr : Type :=
| Str (s : string)
| StrFileID (f : FileID).

Definition str_value (x : pystr) : string :=
  match x with
  | Str s => s
  | StrFileID f => fileStoreID f
  end.

Section StrMethods.
(** [hash] of a string value (seeded per process). *)
Variable str_hash : string -> Z.

(** [str.__eq__] and [str.__hash__]; [FileID] overrides neither. *)
Definition str__eq__ (a b : pystr) : bool := bool_decide (str_value a = str_value b).
Definition str__hash__ (a : pystr) : Z := str_hash (str_value a).
End StrMethods.

(** The classes on the method resolution order of [FileID], and the special
    methods behind construction, [==] and [hash]. *)
Inductive pyclass : Type :=
| class_FileID
| class_str
| class_object.

Inductive special_method : Type :=
| __new__
| __init__
| __eq__
| __hash__.

(** What each class body defines.  The body of [FileID] has [__new__],
    [__init__] (and the class method [forPath]) and nothing else; [str] and
    [object] are the builtins. *)
Definition defines (c : pyclass) (m : special_method) : bool :=
  match c, m with
  | class_FileID, (__new__ | __init__) => true
  | class_FileID, (__eq__ | __hash__) => false
  | class_str, (__new__ | __eq__ | __hash__) => true
  | class_str, __init__ => false
  | class_object, _ => true
  end.

Definition mro (c : pyclass) : list pyclass :=
  match c with
  | class_FileID => [class_FileID; class_str; class_object]
  | class_str => [class_str; class_object]
  | class_object => [class_object]
  end.

Definition type_of (x : pystr) : pyclass :=
  match x with
  | Str _ => class_str
  | StrFileID _ => class_FileID
  end.

(** Looking a special method up on a type: the first class of its MRO whose
    body defines it. *)
Definition lookup_special (c : pyclass) (m : special_method) : option pyclass :=
  List.find (fun c' => defines c' m) (mro c).

Section Comparison.
Variable str_hash : string -> Z.
(** [a is b] and the identity hash, which [object.__eq__] and
    [object.__hash__] go by. *)
Variable is_ : pystr -> pystr -> bool.
Variable id_hash : pystr -> Z.

(** [a == b] and [hash(a)]: the method found on [type(a)] is applied.  (The
    right operand is asked first only when its class is a subclass
    overriding [__eq__], which no class here does.) *)
Definition py_eq (a b : pystr) : bool :=
  match lookup_special (type_of a) __eq__ with
  | Some class_str => str__eq__ a b
  | _ => is_ a b
  end.

Definition py_hash (a : pystr) : Z :=
  match lookup_special (type_of a) __hash__ with
  | Some class_str => str__hash__ str_hash a
  | _ => id_hash a
  end.
End Comparison.

(** Objects are shared by reference: a [FileID] lives at a location of the
    heap, next to whatever state [E] the job store and the streams keep. *)
Abbreviation loc := nat.

Record world (E : Type) : Type := {
  heap : gmap loc FileID;
  ext : E
}.
Arguments heap {E} _.
Arguments ext {E} _.

Definition set_ext {E} (e : E) (w : world E) : world E :=
  {| heap := heap w; ext := e |}.

Definition external {E A} (m : M E A) : M (world E) A := lift ext set_ext m.

(** [FileID(fileStoreID, size)]: a new object. *)
Definition FileID__new__ {E} (fileStoreID : string) (size : Z) : M (world E) loc :=
  fun w =>
    let l := fresh (dom (heap w)) in
    ({| heap := <[l := {| fileStoreID := fileStoreID; size := size |}]> (heap w);
        ext := ext w |}, Return l).

(** [fileID.size += numBytes]. *)
Definition FileID_size_iadd {E} (fileID : loc) (numBytes : Z) : M (world E) unit :=
  fun w =>
    ({| heap := alter (fun f => {| fileStoreID := fileStoreID f;
                                   size := size f + numBytes |}) fileID (heap w);
        ext := ext w |}, Return tt).

(** ** Context managers *)

(** Entering a context manager yields a value and leaves the manager
    waiting for its [__exit__], which is told the exception that ended the
    block ([None] for a normal end) and answers whether to swallow it. *)
Definition ContextManager (W A : Type) : Type :=
  M W (A * (option exn -> M W bool)).

(** [with cm as a: body a].  [None] is returned when [__exit__] swallowed an
    exception of the body. *)
Definition with_ {W A B} (cm : ContextManager W A) (body : A -> M W B) : M W (option B) :=
  entered <- cm ;;
  let '(a, exit_) := entered in
  fun w =>
    match body a w with
    | (w', Return b) => (exit_ None ;; ret (Some b)) w'
    | (w', Raise e) =>
        (swallow <- exit_ (Some e) ;;
         if swallow : bool then ret None else raise e) w'
    end.

(** ** class FileStore *)

(** The part of [toil.jobStores.abstractJobStore.AbstractJobStore] that
    this file calls.  The job store keeps its state in [E]; [R] is whatever
    [importFile] hands back. *)
Record JobStore (E R : Type) : Type := {
  js_writeFileStream : option string -> ContextManager E (Stream E * string);
  js_importFile : string -> option string -> M E R;
  js_exportFile : string -> string -> M E unit
}.
Arguments js_writeFileStream {E R} _ _.
Arguments js_importFile {E R} _ _ _.
Arguments js_exportFile {E R} _ _ _.

Record JobGraph : Type := {
  jobStoreID : string;
  command : string
}.

(** The attributes [FileStore.__init__] sets that the methods below read. *)
Record FileStore (E R : Type) : Type := {
  jobStore : JobStore E R;
  jobGraph : JobGraph;
  localTempDir : string
}.
Arguments jobStore {E R} _.
Arguments jobGraph {E R} _.
Arguments localTempDir {E R} _.

Section FileStoreMethods.
Context {E R : Type}.

(** The job store's stream, seen from the world that also holds the
    heap. *)
Definition external_stream (s : Stream E) : Stream (world E) :=
  {| stream_write := fun data => external (stream_write s data);
     stream_flush := external (stream_flush s);
     stream_close := external (stream_close s) |}.

Definition external_exit (exit_ : option exn -> M E bool)
    : option exn -> M (world E) bool :=
  fun e => external (exit_ e).

(** The generator behind [@contextmanager]: everything up to the [yield]
    is the entry; nothing follows the [yield] but leaving the job store's
    own [with] block, so the exit is the job store's. *)
Definition writeGlobalFileStream (self : FileStore E R) (cleanup : bool)
    : ContextManager (world E) (WriteWatchingStream (world E) * loc) :=
  entered <- external (js_writeFileStream (jobStore self)
               (if negb cleanup then None else Some (jobStoreID (jobGraph self)))) ;;
  let '((backing, fileStoreID), exit_) := entered in
  fileID <- FileID__new__ fileStoreID 0 ;;
  let wrappedStream := WriteWatchingStream__init__ (external_stream backing) in
  let handle := fun numBytes => FileID_size_iadd fileID numBytes in
  let wrappedStream := onWrite wrappedStream handle in
  ret ((wrappedStream, fileID), external_exit exit_).

Definition importFile (self : FileStore E R) (srcUrl : string)
    (sharedFileName : option string) : M (world E) R :=
  external (js_importFile (jobStore self) srcUrl sharedFileName).

Definition exportFile (self : FileStore E R) (jobStoreFileID dstUrl : string)
    : M (world E) unit :=
  raise NotImplementedError.
End FileStoreMethods.

(** ** class FileStore._StateFile *)

(** The files of the node: path to content.  A process running next to
    this one may look at any moment, so the world keeps every state the
    files went through: [now] and, most recent first, [past]. *)
Record fsys : Type := {
  now : gmap string bytes;
  past : list (gmap string bytes)
}.

(** One atomic step of the file system. *)
Definition commit (step : gmap string bytes -> gmap string bytes) : M fsys unit :=
  fun w => ({| now := step (now w); past := now w :: past w |}, Return tt).

(** [open(path, 'rb')] and reading the handle to its end. *)
Definition open_rb (path : string) : M fsys bytes :=
  fun w =>
    match now w !! path with
    | Some content => (w, Return content)
    | None => (w, Raise (IOError ENOENT))
    end.

(** [open(path, 'wb')]: the file is created or truncated. *)
Definition open_wb (path : string) : M fsys unit :=
  commit (fun files => <[path := []]> files).

(** [fH.write(data)] on a handle opened for writing at [path]. *)
Definition file_write (path : string) (data : bytes) : M fsys unit :=
  commit (fun files => alter (fun content => content ++ data) path files).

(** [os.rename(src, dst)]: one step that replaces [dst]. *)
Definition os_rename (src dst : string) : M fsys unit :=
  fun w =>
    match now w !! src with
    | Some content => commit (fun files => <[dst := content]> (delete src files)) w
    | None => (w, Raise (OSError ENOENT))
    end.

Definition of_result {W A} (r : result A) : M W A := fun w => (w, r).

Record _StateFile (pyobj : Type) : Type := {
  __dict__ : gmap string pyobj
}.
Arguments __dict__ {pyobj} _.

Section StateFile.
Context {pyobj : Type}.

(** [dill.dump(obj, fH)]: the bytes it hands to the handle, and the
    exception it ends with, if any. *)
Variable dill_dump : gmap string pyobj -> bytes * option exn.
(** [dill.load(fH)] on a handle with the given content. *)
Variable dill_load : bytes -> result pyobj.
(** [isinstance(x, dict)], with the mapping when it holds. *)
Variable as_dict : pyobj -> option (gmap string pyobj).

(** [dict.update] on the attribute dictionary of a new object, which is
    empty. *)
Definition _StateFile__init__ {W} (stateDict : pyobj) : M W (_StateFile pyobj) :=
  match as_dict stateDict with
  | Some d => ret {| __dict__ := d ∪ ∅ |}
  | None => raise AssertionError
  end.

Definition _load (fileName : string) : M fsys (_StateFile pyobj) :=
  infoDict <- (content <- open_rb fileName ;; of_result (dill_load content)) ;;
  _StateFile__init__ infoDict.

(** [_StateFile.write]. The pickler's output reaches the temporary file
    byte by byte, the finest way a writer can be interleaved with a
    reader. *)
Definition _StateFile_write (self : _StateFile pyobj) (fileName : string) : M fsys unit :=
  (open_wb (fileName +:+ ".tmp") ;;
   let '(emitted, failure) := dill_dump (__dict__ self) in
   for_ emitted (fun b => file_write (fileName +:+ ".tmp") [b]) ;;
   match failure with
   | Some e => raise e
   | None => ret tt
   end) ;;
  os_rename (fileName +:+ ".tmp") fileName.
End StateFile.

(** ** class DeferredFunction and FileStore._runDeferredFunctions *)

(** What the deferred-function code asks of its surroundings: dill, the
    attributes of a callable, [toil.resource.ModuleDescriptor], calling a
    Python object, and the module's logger (which does not raise). *)
Class PyRuntime (W pyobj moduleDescriptor : Type) : Type := {
  dill_dumps : pyobj -> result bytes;
  dill_loads : bytes -> result pyobj;
  getattr__name__ : pyobj -> result string;
  getattr__module__ : pyobj -> result string;
  forModule_globalize : string -> M W moduleDescriptor;
  makeLoadable : moduleDescriptor -> M W unit;
  py_call : pyobj -> pyobj -> pyobj -> M W pyobj;
  logger_debug : string -> W -> W;
  logger_exception : string -> exn -> W -> W
}.

Module DeferredFunction.
(** The namedtuple ['function args kwargs name module']. *)
Record t (moduleDescriptor : Type) : Type := mk {
  function : bytes;
  args : bytes;
  kwargs : bytes;
  name : string;
  module : moduleDescriptor
}.
Arguments mk {moduleDescriptor} _ _ _ _ _.
Arguments function {moduleDescriptor} _.
Arguments args {moduleDescriptor} _.
Arguments kwargs {moduleDescriptor} _.
Arguments name {moduleDescriptor} _.
Arguments module {moduleDescriptor} _.

Section Methods.
Context {W pyobj moduleDescriptor : Type} `{!PyRuntime W pyobj moduleDescriptor}.

(** [create(function, *args, **kwargs)]; [args] is the tuple and
    [kwargs] the dict. *)
Definition create (function args kwargs : pyobj) : M W (t moduleDescriptor) :=
  f <- of_result (dill_dumps function) ;;
  a <- of_result (dill_dumps args) ;;
  k <- of_result (dill_dumps kwargs) ;;
  name <- of_result (getattr__name__ function) ;;
  modname <- of_result (getattr__module__ function) ;;
  module <- forModule_globalize modname ;;
  ret (mk f a k name module).

Definition __str__ (self : t moduleDescriptor) : string :=
  "DeferredFunction(" +:+ name self +:+ ", ...)".

Definition invoke (self : t moduleDescriptor) : M W pyobj :=
  (fun w => (logger_debug ("Running deferred function " +:+ __str__ self +:+ ".") w,
             Return tt)) ;;
  makeLoadable (module self) ;;
  function <- of_result (dill_loads (function self)) ;;
  args <- of_result (dill_loads (args self)) ;;
  kwargs <- of_result (dill_loads (kwargs self)) ;;
  py_call function args kwargs.
End Methods.
End DeferredFunction.

Section RunDeferredFunctions.
Context {W pyobj moduleDescriptor : Type} `{!PyRuntime W pyobj moduleDescriptor}.

(** The [for] loop of [_runDeferredFunctions], with the list it fills. *)
Fixpoint _runDeferredFunctions_loop
    (deferredFunctions : list (DeferredFunction.t moduleDescriptor))
    (failures : list string) : M W (list string) :=
  match deferredFunctions with
  | [] => ret failures
  | deferredFunction :: rest =>
      failures <- try_except_else (DeferredFunction.invoke deferredFunction)
        (fun e => Some (
           let failures := failures ++ [DeferredFunction.name deferredFunction] in
           fun w => (logger_exception
                       (DeferredFunction.__str__ deferredFunction +:+ " failed.") e w,
                     Return failures)))
        (fun _ => ret failures) ;;
      _runDeferredFunctions_loop rest failures
  end.

Definition _runDeferredFunctions
    (deferredFunctions : list (DeferredFunction.t moduleDescriptor)) : M W (list string) :=
  _runDeferredFunctions_loop deferredFunctions [].
End RunDeferredFunctions.

(** A kernel in which every process belongs to somebody else: signalling
    is refused with EPERM. *)
Definition os_kill_foreign : Z -> Z -> M unit unit :=
  fun _ _ => raise (OSError EPERM).

(** ** Observing a stream: a backing stream and listeners that keep a log *)

Inductive event : Type :=
| Wrote (data : bytes)
| Notified (listener : nat) (numBytes : Z).

(** A backing stream that records each write it accepts and raises, without
    a trace, on one it refuses; [accepts] decides from what happened so
    far. *)
Definition recording_stream (accepts : list event -> bytes -> bool) : Stream (list event) :=
  {| stream_write := fun data log =>
       if accepts log data then (log ++ [Wrote data], Return tt)
       else (log, Raise (IOError EIO));
     stream_flush := ret tt;
     stream_close := ret tt |}.

(** The [i]-th listener records what it is called with. *)
Definition recording_listener (i : nat) : Z -> M (list event) unit :=
  fun numBytes log => (log ++ [Notified i numBytes], Return tt).

(** A stream on which listeners [0 .. k-1] were registered, in that order,
    by [onWrite]. *)
Definition watched (accepts : list event -> bytes -> bool) (k : nat)
    : WriteWatchingStream (list event) :=
  foldl onWrite (WriteWatchingStream__init__ (recording_stream accepts))
        (map recording_listener (seq 0%nat k)).

(** What one chunk must leave in the log: the write, then one notification
    per listener in registration order, each with [len(data)]. *)
Definition chunk_events (k : nat) (data : bytes) : list event :=
  Wrote data :: map (fun i => Notified i (len data)) (seq 0%nat k).

(** The byte counts listener [i] was told, summed. *)
Fixpoint notified_total (i : nat) (log : list event) : Z :=
  match log with
  | [] => 0
  | Wrote _ :: log' => notified_total i log'
  | Notified j n :: log' =>
      (if bool_decide (i = j) then n else 0) + notified_total i log'
  end.

Fixpoint sum_len (chunks : list bytes) : Z :=
  match chunks with
  | [] => 0
  | data :: rest => len data + sum_len rest
  end.

(** The chunks a backing stream takes, from state [e] on, before the first
    one it refuses. *)
Fixpoint accepted {E} (backing : Stream E) (chunks : list bytes) (e : E) : list bytes :=
  match chunks with
  | [] => []
  | data :: rest =>
      match stream_write backing data e with
      | (e', Return _) => data :: accepted backing rest e'
      | (_, Raise _) => []
      end
  end.

(** ** A small job store *)

(** Its state is the list of exports it has carried out; its streams take
    every write. *)
Definition sink : Stream (list (string * string)) :=
  {| stream_write := fun _ => ret tt; stream_flush := ret tt; stream_close := ret tt |}.

Definition toyJobStore : JobStore (list (string * string)) string :=
  {| js_writeFileStream := fun _ => ret ((sink, "files/no-job/file-0"), fun _ => ret false);
     js_importFile := fun srcUrl _ => ret ("imported:" +:+ srcUrl);
     js_exportFile := fun jobStoreFileID dstUrl =>
       fun exports => (exports ++ [(jobStoreFileID, dstUrl)], Return tt) |}.

Definition toyFileStore : FileStore (list (string * string)) string :=
  {| jobStore := toyJobStore;
     jobGraph := {| jobStoreID := "job-7"; command := "_toil worker" |};
     localTempDir := "/tmp/toil/t0" |}.

Definition emptyWorld : world (list (string * string)) :=
  {| heap := ∅; ext := [] |}.

(** Names for two expressions of [writeGlobalFileStream]: the name hint it
    passes to the job store, and the stream it yields for the FileID at
    [fileID]. *)
Definition name_hint {E R} (self : FileStore E R) (cleanup : bool) : option string :=
  if negb cleanup then None else Some (jobStoreID (jobGraph self)).

Definition tracked_stream {E} (backing : Stream E) (fileID : loc)
    : WriteWatchingStream (world E) :=
  onWrite (WriteWatchingStream__init__ (external_stream backing))
          (fun numBytes => FileID_size_iadd fileID numBytes).

(** The block of a caller of [writeGlobalFileStream]: some writes to the
    yielded stream. *)
Definition write_block {E} (calls : list stream_call)
    (yielded : WriteWatchingStream (world E) * loc) : M (world E) unit :=
  for_ calls (call_stream (fst yielded)).

(** ** A small pickle format *)

(** Objects: [None], an integer, and the one-field state dictionary
    [{'pid': pid}]. *)
Inductive toyobj : Type :=
| TNone
| TInt (n : Z)
| TState (pid : Z).

Definition toy_as_dict (x : toyobj) : option (gmap string toyobj) :=
  match x with
  | TState pid => Some {[ "pid"%string := TInt pid ]}
  | _ => None
  end.

(** A state dictionary is the opcode [x80] and the pid as one byte; a pid
    that does not fit, or any other content, makes the pickler give up after
    the opcode. *)
Definition toy_dump (d : gmap string toyobj) : bytes * option exn :=
  match d !! "pid"%string with
  | Some (TInt pid) =>
      match Byte.of_N (Z.to_N pid) with
      | Some b => ([Byte.x80; b], None)
      | None => ([Byte.x80], Some (PicklingError "pid out of range"))
      end
  | _ => ([Byte.x80], Some (PicklingError "no pid"))
  end.

Definition toy_load (content : bytes) : result toyobj :=
  match content with
  | [] => Raise EOFError
  | [b] => if Byte.eqb b Byte.x4e then Return TNone else Raise EOFError
  | [op; b] =>
      if Byte.eqb op Byte.x80 then Return (TState (Z.of_N (Byte.to_N b)))
      else Raise (UnpicklingError "invalid load key")
  | _ => Raise (UnpicklingError "invalid load key")
  end.

(** The record of the worker with pid 42, and where it is kept. *)
Definition state42 : _StateFile toyobj :=
  {| __dict__ := {[ "pid"%string := TInt 42 ]} |}.

Definition stateFilePath : string := "/var/toil/node/.jobState".

(** ** Running a batch, as the specification words it *)

Section BatchSpec.
Context {W pyobj moduleDescriptor : Type} `{!PyRuntime W pyobj moduleDescriptor}.

(** "catching and logging any exception per-action". *)
Definition log_failure (action : DeferredFunction.t moduleDescriptor)
    (outcome : result pyobj) (w : W) : W :=
  match outcome with
  | Return _ => w
  | Raise e => logger_exception (DeferredFunction.__str__ action +:+ " failed.") e w
  end.

(** "given a sequence of actions, invoke each in order": every action of
    the sequence is invoked, once, in the world its predecessors left, and
    has an outcome. *)
Inductive invoked_in_order
    : list (DeferredFunction.t moduleDescriptor) -> W -> list (result pyobj) -> W -> Prop :=
| invoked_none w : invoked_in_order [] w [] w
| invoked_next action rest w w1 outcome outcomes w2 :
    DeferredFunction.invoke action w = (w1, outcome) ->
    invoked_in_order rest (log_failure action outcome w1) outcomes w2 ->
    invoked_in_order (action :: rest) w (outcome :: outcomes) w2.

(** "collecting the names of failed actions". *)
Fixpoint failed_names (actions : list (DeferredFunction.t moduleDescriptor))
    (outcomes : list (result pyobj)) : list string :=
  match actions, outcomes with
  | action :: actions', Raise _ :: outcomes' =>
      DeferredFunction.name action :: failed_names actions' outcomes'
  | _ :: actions', Return _ :: outcomes' => failed_names actions' outcomes'
  | _, _ => []
  end.
End BatchSpec.

(** ** A small Python runtime *)

(** Objects: a function known by a one-character name that counts its
    positional arguments or raises, a tuple, an (empty) dict, an integer,
    and a callable without [__name__] (a [functools.partial]). *)
Inductive pyval : Type :=
| PFun (tag : Byte.byte) (raises : bool)
| PTuple (items : bytes)
| PDict
| PInt (n : Z)
| PPartial.

Inductive toy_event : Type :=
| Called (fn : string)
| Loaded (modname : string)
| Logged (msg : string).

Definition toy_name (tag : Byte.byte) : string := String (Ascii.ascii_of_byte tag) "".

Definition toy_dumps (x : pyval) : result bytes :=
  match x with
  | PFun tag raises => Return [Byte.x00; tag; if raises then Byte.x01 else Byte.x00]
  | PTuple items => Return (Byte.x01 :: items)
  | PDict => Return [Byte.x02]
  | PInt _ => Raise (PicklingError "int")
  | PPartial => Return [Byte.x03]
  end.

Definition toy_loads (pickled : bytes) : result pyval :=
  match pickled with
  | [] => Raise EOFError
  | op :: body =>
      if Byte.eqb op Byte.x00 then
        match body with
        | [tag; flag] => Return (PFun tag (Byte.eqb flag Byte.x01))
        | _ => Raise (UnpicklingError "function")
        end
      else if Byte.eqb op Byte.x01 then Return (PTuple body)
      else if Byte.eqb op Byte.x02 then Return PDict
      else if Byte.eqb op Byte.x03 then Return PPartial
      else Raise (UnpicklingError "invalid load key")
  end.

#[export] Instance toyRuntime : PyRuntime (list toy_event) pyval string := {|
  dill_dumps := toy_dumps;
  dill_loads := toy_loads;
  getattr__name__ := fun x =>
    match x with
    | PFun tag _ => Return (toy_name tag)
    | _ => Raise (AttributeError "__name__")
    end;
  getattr__module__ := fun x =>
    match x with
    | PFun _ _ => Return "jobs"%string
    | _ => Raise (AttributeError "__module__")
    end;
  forModule_globalize := fun modname => ret modname;
  makeLoadable := fun modname w => (w ++ [Loaded modname], Return tt);
  py_call := fun f args _ =>
    match f, args with
    | PFun tag raises, PTuple items =>
        fun w => (w ++ [Called (toy_name tag)],
                  if raises then Raise (Exception (toy_name tag))
                  else Return (PInt (len items)))
    | _, _ => raise (TypeError "not callable")
    end;
  logger_debug := fun _ w => w;
  logger_exception := fun msg _ w => w ++ [Logged msg]
|}.

(** The deferred function [create] makes of function [tag]. *)
Definition toy_deferred (tag : Byte.byte) (raises : bool) : DeferredFunction.t string :=
  DeferredFunction.mk [Byte.x00; tag; if raises then Byte.x01 else Byte.x00]
                      [Byte.x01] [Byte.x02] (toy_name tag) "jobs".

(** ** FileID.forPath *)

(** [cls(fileStoreID, os.stat(filePath).st_size)]: the size is read first,
    then the object is made.  [os_stat_st_size] is [os.stat(...).st_size]. *)
Definition FileID_forPath {E} (os_stat_st_size : string -> M E Z)
    (fileStoreID filePath : string) : M (world E) loc :=
  st_size <- external (os_stat_st_size filePath) ;;
  FileID__new__ fileStoreID st_size.

(** ** FileStore.logToMaster *)

(** The dict [dict(text=text, level=level)]. *)
Module LogMessage.
Record t : Type := mk { text : string; level : Z }.
End LogMessage.

(** [logging.INFO]. *)
Definition INFO : Z := 20.

(** What [logToMaster] writes to: the records the module's logger was
    handed (level and message), and [self.loggingMessages]. *)
Record logging_state : Type := {
  logged : list (Z * string);
  loggingMessages : list LogMessage.t
}.

Definition logToMaster (text : string) (level : Z) : M logging_state unit :=
  fun w =>
    ({| logged := logged w ++ [(level, "LOG-TO-MASTER: " +:+ text)];
        loggingMessages := loggingMessages w ++ [LogMessage.mk text level] |},
     Return tt).

(** ** FileStore.getLocalTempFile and FileStore.getLocalTempFileName *)

Definition EEXIST : Z := 17.

Section TempFiles.
Context {E R : Type}.

(** The name [tempfile.mkstemp(prefix, suffix, dir)] settles on, given the
    files that exist. *)
Variable mkstemp_name : string -> string -> string -> gmap string bytes -> string.
(** [os.path.abspath]. *)
Variable abspath : string -> string.

(** [tempfile.mkstemp]: the file is created exclusively, empty; the handle
    is closed by the caller at once and is left out. *)
Definition tempfile_mkstemp (prefix suffix dir : string) : M (gmap string bytes) string :=
  fun files =>
    let name := mkstemp_name prefix suffix dir files in
    match files !! name with
    | None => (<[name := []]> files, Return name)
    | Some _ => (files, Raise (OSError EEXIST))
    end.

(** [os.remove(path)]. *)
Definition os_remove (path : string) : M (gmap string bytes) unit :=
  fun files =>
    match files !! path with
    | Some _ => (delete path files, Return tt)
    | None => (files, Raise (OSError ENOENT))
    end.

Definition getLocalTempFile (self : FileStore E R) : M (gmap string bytes) string :=
  tmpFile <- tempfile_mkstemp "tmp" ".tmp" (localTempDir self) ;;
  ret (abspath tmpFile).

Definition getLocalTempFileName (self : FileStore E R) : M (gmap string bytes) string :=
  tempFile <- getLocalTempFile self ;;
  os_remove tempFile ;;
  ret tempFile.
End TempFiles.

(** ** More small instances *)

(** A backing stream that takes every write. *)
Definition always_accepts : list event -> bytes -> bool := fun _ _ => true.

(** A listener that raises. *)
Definition raising_listener (e : exn) : Z -> M (list event) unit :=
  fun _ => raise e.

(** mkstemp trying the infix a, then b. *)
Definition two_name_mkstemp (prefix suffix dir : string) (files : gmap string bytes) : string :=
  match files !! (dir +:+ "/" +:+ prefix +:+ "a" +:+ suffix) with
  | None => dir +:+ "/" +:+ prefix +:+ "a" +:+ suffix
  | Some _ => dir +:+ "/" +:+ prefix +:+ "b" +:+ suffix
  end.

(** A record whose pid does not fit the small pickle format. *)
Definition state300 : _StateFile toyobj :=
  {| __dict__ := {[ "pid"%string := TInt 300 ]} |}.

(** The files of a node with an older record. *)
Definition nodeFiles : fsys :=
  {| now := {[ stateFilePath := [Byte.x80; Byte.x07] ]}; past := [] |}.

(** A deferred function whose serialized callable is garbage. *)
Definition corrupt_deferred : DeferredFunction.t string :=
  DeferredFunction.mk [Byte.xff] [Byte.x01] [Byte.x02] "c" "jobs".

(** A job store that is down, and a file store on it. *)
Definition downJobStore : JobStore (list (string * string)) string :=
  {| js_writeFileStream := fun _ => raise (IOError EIO);
     js_importFile := fun _ _ => raise (IOError EIO);
     js_exportFile := fun _ _ => raise (IOError EIO) |}.

Definition downFileStore : FileStore (list (string * string)) string :=
  {| jobStore := downJobStore;
     jobGraph := {| jobStoreID := "job-7"; command := "_toil worker" |};
     localTempDir := "/tmp/toil/t0" |}.

(** ** Deserialization errors *)

(** The source defines no [DeserializationError] and wraps no exception.
    The errors that deserializing can end with are the unpickler's: a
    truncated stream ([EOFError]) or one it cannot decode
    ([UnpicklingError]). *)
Definition DeserializationError (e : exn) : Prop :=
  e = EOFError \/ exists msg, e = UnpicklingError msg.

(** A deserializer that cannot fail: it makes the same record of any
    content. *)
Definition lenient_load (content : bytes) : result toyobj := Return (TState 0).

(** The record of pid 42 with the low bit of its last byte flipped. *)
Definition damaged42 : bytes := [Byte.x80; Byte.x2b].

(** * Theorems *)

Section PidExistsFacts.
Context {W : Type} (os_kill : Z -> Z -> M W unit).

Lemma pidExists_kill_world pid w :
  0 < pid -> fst (_pidExists os_kill pid w) = fst (os_kill pid 0 w).
Proof.
  intros Hpid. unfold _pidExists, bind, assert_, try_except_else.
  destruct (Z.ltb_spec 0 pid) as [_|]; [|lia]. simpl.
  destruct (os_kill pid 0 w) as [w' [[]|e]]; simpl; [done|].
  destruct e; simpl; try done.
  by destruct (errno =? ESRCH).
Qed.
End PidExistsFacts.

(** The probe as it is written: for a positive pid it returns False exactly
    when the no-op signal fails with ESRCH, returns True exactly when the
    signal succeeds, and lets every other exception of [os.kill] (an
    [OSError] with any other errno) reach its caller. *)
Lemma pidExists_behaviour {W} (os_kill : Z -> Z -> M W unit) (pid : Z) (w : W) :
  0 < pid ->
  (snd (_pidExists os_kill pid w) = Return false
     <-> snd (os_kill pid 0 w) = Raise (OSError ESRCH))
  /\ (snd (_pidExists os_kill pid w) = Return true
     <-> snd (os_kill pid 0 w) = Return tt)
  /\ (forall e, e <> OSError ESRCH ->
        snd (os_kill pid 0 w) = Raise e ->
        snd (_pidExists os_kill pid w) = Raise e).
Proof.
  intros Hpid. unfold _pidExists, bind, assert_, try_except_else.
  destruct (Z.ltb_spec 0 pid) as [_|]; [|lia]. simpl.
  destruct (os_kill pid 0 w) as [w' [[]|e]]; simpl.
  - repeat split; try done.
  - destruct e; simpl;
      try (repeat split; [done | done | done | done | by intros e' _ [= <-]]).
    destruct (Z.eqb_spec errno ESRCH) as [->|Hne]; simpl.
    + repeat split; try done. intros e' Hne [= <-]. done.
    + repeat split; try done.
      * intros [= ->]. done.
      * by intros e' _ [= <-].
Qed.

(** C1: the probe at a process that is alive but owned by somebody else.
    [os.kill] is refused with EPERM, which is not ESRCH; the claim, and the
    docstring of [_pidExists] ("will return True if the process associated
    with pid is still running"), want True here, but the [else: raise] of
    the handler lets the [OSError] reach the caller. *)
Lemma pidExists_eperm_raises :
  0 < 4242
  /\ snd (os_kill_foreign 4242 0 tt) = Raise (OSError EPERM)
  /\ OSError EPERM <> OSError ESRCH
  /\ snd (_pidExists os_kill_foreign 4242 tt) = Raise (OSError EPERM)
  /\ snd (_pidExists os_kill_foreign 4242 tt) <> Return true.
Proof. repeat split; try done. Qed.

(** ** WriteWatchingStream *)

Section MonadFacts.
Context {W : Type}.

Lemma for_app {A} (xs ys : list A) (body : A -> M W unit) (w : W) :
  for_ (xs ++ ys) body w = (for_ xs body ;; for_ ys body) w.
Proof.
  revert w. induction xs as [|x xs IH]; intros w; simpl.
  - done.
  - unfold bind. destruct (body x w) as [w' [[]|e]]; [|done].
    rewrite IH. done.
Qed.

Lemma writeListeners_foldl_onWrite (s : WriteWatchingStream W) ls :
  writeListeners (foldl onWrite s ls) = writeListeners s ++ ls
  /\ backingStream (foldl onWrite s ls) = backingStream s.
Proof.
  revert s. induction ls as [|l ls IH]; intros s; simpl.
  - by rewrite app_nil_r.
  - destruct (IH (onWrite s l)) as [-> ->]. simpl.
    by rewrite <- app_assoc.
Qed.

(** Calls of [write] and [writelines] come down to one [write] per
    chunk. *)
Lemma calls_as_chunks (s : WriteWatchingStream W) calls w :
  for_ calls (call_stream s) w = for_ (chunks_of calls) (write s) w.
Proof.
  revert w. induction calls as [|c calls IH]; intros w; [done|].
  destruct c as [data|datas]; simpl.
  - unfold bind. destruct (write s data w) as [w' [[]|e]]; [|done].
    apply IH.
  - rewrite for_app. unfold bind, writelines.
    destruct (for_ datas _ w) as [w' [[]|e]]; [|done]. apply IH.
Qed.
End MonadFacts.

Lemma notify_recording (js : list nat) (n : Z) (log : list event) :
  for_ (map recording_listener js) (fun listener => listener n) log
  = (log ++ map (fun i => Notified i n) js, Return tt).
Proof.
  revert log. induction js as [|j js IH]; intros log; simpl.
  - by rewrite app_nil_r.
  - unfold bind, recording_listener at 1. rewrite IH.
    by rewrite <- app_assoc.
Qed.

Lemma write_watched accepts k data log :
  write (watched accepts k) data log
  = if accepts log data then (log ++ chunk_events k data, Return tt)
    else (log, Raise (IOError EIO)).
Proof.
  unfold write, watched.
  destruct (writeListeners_foldl_onWrite
              (WriteWatchingStream__init__ (recording_stream accepts))
              (map recording_listener (seq 0%nat k))) as [-> ->].
  simpl. unfold bind. destruct (accepts log data); [|done].
  rewrite notify_recording. unfold chunk_events.
  by rewrite <- app_assoc.
Qed.

Lemma notified_total_app i log1 log2 :
  notified_total i (log1 ++ log2) = notified_total i log1 + notified_total i log2.
Proof.
  induction log1 as [|[d|j n] log1 IH]; simpl; lia.
Qed.

Lemma notified_total_listeners i n js :
  NoDup js ->
  notified_total i (map (fun j => Notified j n) js) = if bool_decide (i ∈ js) then n else 0.
Proof.
  induction 1 as [|j js Hj Hnd IH]; simpl.
  - done.
  - rewrite IH. destruct (decide (i = j)) as [->|Hne].
    + rewrite (bool_decide_eq_true_2 (j = j)) by done.
      rewrite (bool_decide_eq_false_2 (j ∈ js)) by done.
      rewrite bool_decide_eq_true_2 by (apply elem_of_cons; by left). lia.
    + rewrite (bool_decide_eq_false_2 (i = j)) by done.
      rewrite (bool_decide_ext (i ∈ j :: js) (i ∈ js))
        by (rewrite elem_of_cons; tauto).
      lia.
Qed.

Lemma notified_total_chunk i k data :
  (i < k)%nat -> notified_total i (chunk_events k data) = len data.
Proof.
  intros Hi. unfold chunk_events. simpl.
  rewrite notified_total_listeners by apply NoDup_seq.
  rewrite bool_decide_eq_true_2; [done|]. apply elem_of_seq. lia.
Qed.

Lemma notified_total_chunks i k chunks :
  (i < k)%nat -> notified_total i (flat_map (chunk_events k) chunks) = sum_len chunks.
Proof.
  intros Hi. induction chunks as [|d chunks IH]; [done|].
  cbn [flat_map sum_len]. rewrite notified_total_app, IH, notified_total_chunk; done.
Qed.

Lemma sum_len_concat chunks : sum_len chunks = len (concat chunks).
Proof.
  induction chunks as [|d chunks IH]; [done|].
  cbn [sum_len concat]. unfold len in *. rewrite length_app. lia.
Qed.

Lemma writes_watched accepts k chunks log0 :
  exists n : nat,
    (n <= length chunks)%nat
    /\ fst (for_ chunks (write (watched accepts k)) log0)
       = log0 ++ flat_map (chunk_events k) (take n chunks)
    /\ ((snd (for_ chunks (write (watched accepts k)) log0) = Return tt
         /\ n = length chunks)
        \/ (snd (for_ chunks (write (watched accepts k)) log0) = Raise (IOError EIO)
            /\ exists data, chunks !! n = Some data
               /\ accepts (log0 ++ flat_map (chunk_events k) (take n chunks)) data = false)).
Proof.
  revert log0. induction chunks as [|d chunks IH]; intros log0.
  - exists 0%nat. simpl. rewrite app_nil_r. auto.
  - cbn [for_]. unfold bind. rewrite write_watched.
    destruct (accepts log0 d) eqn:Hacc.
    + destruct (IH (log0 ++ chunk_events k d)) as (n & Hn & Hlog & Hres).
      exists (S n). cbn [take flat_map length].
      rewrite app_assoc. rewrite <- app_assoc in Hlog, Hres.
      rewrite <- !app_assoc. split; [lia|]. split; [done|].
      destruct Hres as [[Hr ->]|[Hr (d' & Hd' & Hrej)]]; [left|right]; eauto.
    + exists 0%nat. simpl. rewrite app_nil_r. split; [lia|]. split; [done|].
      right. eauto.
Qed.

(** C3: on a stream with listeners [0 .. k-1] registered by [onWrite], any
    sequence of [write] and [writelines] calls leaves, for a prefix of its
    chunks, the record "backing write of the chunk, then listener 0, ...,
    listener k-1 each told len(chunk)", chunk after chunk; the prefix is
    everything when no write raises, and stops just before the first chunk
    the backing stream refuses, which notifies nobody and whose exception
    ends the calls.  Each listener's notifications add up to the summed
    lengths of the chunks written, which for a complete run is the length
    of the data whatever the chunking. *)
Theorem write_watching_notifications
    (accepts : list event -> bytes -> bool) (k : nat) (calls : list stream_call) :
  let run := for_ calls (call_stream (watched accepts k)) [] in
  exists n : nat,
    (n <= length (chunks_of calls))%nat
    /\ fst run = flat_map (chunk_events k) (take n (chunks_of calls))
    /\ (forall i, (i < k)%nat ->
          notified_total i (fst run) = sum_len (take n (chunks_of calls)))
    /\ ((snd run = Return tt
         /\ n = length (chunks_of calls)
         /\ forall i, (i < k)%nat ->
              notified_total i (fst run) = len (concat (chunks_of calls)))
        \/ (snd run = Raise (IOError EIO)
            /\ exists data, chunks_of calls !! n = Some data
               /\ accepts (fst run) data = false)).
Proof.
  intros run. subst run. rewrite calls_as_chunks.
  destruct (writes_watched accepts k (chunks_of calls) []) as (n & Hn & Hlog & Hres).
  simpl in Hlog, Hres. exists n. rewrite Hlog.
  split; [done|]. split; [done|].
  split; [intros i Hi; by apply notified_total_chunks|].
  destruct Hres as [[Hr ->]|[Hr (d & Hd & Hrej)]]; [left|right].
  - split; [done|]. split; [done|]. intros i Hi.
    rewrite notified_total_chunks by done.
    rewrite firstn_all. apply sum_len_concat.
  - eauto.
Qed.

(** ** FileStore.writeGlobalFileStream and the FileID it yields *)

Section WriteGlobalFileStreamFacts.
Context {E R : Type}.
Implicit Types (w : world E) (backing : Stream E) (fileID : loc).

Lemma heap_external {A} (m : M E A) w : heap (fst (external m w)) = heap w.
Proof. unfold external, lift. by destruct (m (ext w)). Qed.

Lemma write_tracked_stream backing fileID data w :
  write (tracked_stream backing fileID) data w
  = match stream_write backing data (ext w) with
    | (e', Return _) =>
        ({| heap := alter (fun f => {| fileStoreID := fileStoreID f;
                                       size := size f + len data |}) fileID (heap w);
            ext := e' |}, Return tt)
    | (e', Raise x) => (set_ext e' w, Raise x)
    end.
Proof.
  unfold write, tracked_stream, bind. simpl. unfold external, lift.
  destruct (stream_write backing data (ext w)) as [e' [[]|x]]; done.
Qed.

(** Writing chunks: the yielded FileID keeps its string value and gains
    the length of each chunk taken; no other object is touched. *)
Lemma writes_tracked_stream backing fileID chunks w f :
  heap w !! fileID = Some f ->
  heap (fst (for_ chunks (write (tracked_stream backing fileID)) w)) !! fileID
    = Some {| fileStoreID := fileStoreID f;
              size := size f + sum_len (accepted backing chunks (ext w)) |}
  /\ (forall l, l <> fileID ->
        heap (fst (for_ chunks (write (tracked_stream backing fileID)) w)) !! l = heap w !! l)
  /\ (snd (for_ chunks (write (tracked_stream backing fileID)) w) = Return tt ->
        accepted backing chunks (ext w) = chunks).
Proof.
  revert w f. induction chunks as [|d chunks IH]; intros w f Hf.
  - simpl. rewrite Z.add_0_r. destruct f; done.
  - cbn [for_ accepted]. unfold bind. rewrite write_tracked_stream.
    destruct (stream_write backing d (ext w)) as [e' [[]|x]].
    + match goal with |- context [for_ chunks _ ?w1] => set (w' := w1) end.
      destruct (IH w' {| fileStoreID := fileStoreID f; size := size f + len d |})
        as (Hl & Hframe & Hok).
      { subst w'. simpl. rewrite lookup_alter_eq, Hf. done. }
      split; [|split].
      * rewrite Hl. simpl. f_equal. f_equal. lia.
      * intros l Hne. rewrite Hframe by done. subst w'. simpl.
        by rewrite lookup_alter_ne.
      * intros Hr. f_equal. by apply Hok.
    + simpl. rewrite Z.add_0_r. destruct f; done.
Qed.
End WriteGlobalFileStreamFacts.

Section WithFacts.
Context {W A B : Type}.

(** Leaving a [with] block: the world is the one the block left, passed
    through [__exit__]; a value comes out only if the block returned it. *)
Lemma with_entered (cm : ContextManager W A) (body : A -> M W B) w w1 a exit_ :
  cm w = (w1, Return (a, exit_)) ->
  fst (with_ cm body w)
    = fst (exit_ (match snd (body a w1) with
                  | Return _ => None
                  | Raise e => Some e
                  end) (fst (body a w1)))
  /\ (forall b, snd (with_ cm body w) = Return (Some b) -> snd (body a w1) = Return b).
Proof.
  intros Hcm. unfold with_, bind. rewrite Hcm.
  destruct (body a w1) as [w2 [b|e]]; simpl.
  - destruct (exit_ None w2) as [w3 [s|e]]; simpl; [|done].
    split; [done|]. by intros b' [= ->].
  - destruct (exit_ (Some e) w2) as [w3 [[]|e']]; simpl; done.
Qed.

Lemma with_not_entered (cm : ContextManager W A) (body : A -> M W B) w w1 e :
  cm w = (w1, Raise e) -> with_ cm body w = (w1, Raise e).
Proof. intros Hcm. unfold with_, bind. by rewrite Hcm. Qed.
End WithFacts.

Section WriteGlobalFileStreamScope.
Context {E R : Type}.
Implicit Types (w : world E) (self : FileStore E R).

Lemma writeGlobalFileStream_enter self cleanup w e1 backing key exit_ :
  js_writeFileStream (jobStore self) (name_hint self cleanup) (ext w)
    = (e1, Return ((backing, key), exit_)) ->
  writeGlobalFileStream self cleanup w
  = ({| heap := <[fresh (dom (heap w)) := {| fileStoreID := key; size := 0 |}]> (heap w);
        ext := e1 |},
     Return ((tracked_stream backing (fresh (dom (heap w))), fresh (dom (heap w))),
             external_exit exit_)).
Proof.
  intros Henter. unfold writeGlobalFileStream, bind, external, lift, name_hint in *.
  rewrite Henter. done.
Qed.

Lemma writeGlobalFileStream_not_entered self cleanup w e1 x :
  js_writeFileStream (jobStore self) (name_hint self cleanup) (ext w) = (e1, Raise x) ->
  writeGlobalFileStream self cleanup w = (set_ext e1 w, Raise x).
Proof.
  intros Henter. unfold writeGlobalFileStream, bind, external, lift, name_hint in *.
  rewrite Henter. done.
Qed.

Lemma fresh_loc_unused w : heap w !! fresh (dom (heap w)) = None.
Proof. apply not_elem_of_dom, is_fresh. Qed.

(** The heap when the scope is left, in terms of the writes of the block. *)
Lemma writeGlobalFileStream_scope self cleanup calls w e1 backing key exit_ :
  js_writeFileStream (jobStore self) (name_hint self cleanup) (ext w)
    = (e1, Return ((backing, key), exit_)) ->
  let fileID := fresh (dom (heap w)) in
  let left := with_ (writeGlobalFileStream self cleanup) (write_block calls) w in
  heap (fst left) !! fileID
    = Some {| fileStoreID := key;
              size := sum_len (accepted backing (chunks_of calls) e1) |}
  /\ (forall l, l <> fileID -> heap (fst left) !! l = heap w !! l)
  /\ (snd left = Return (Some tt) ->
        accepted backing (chunks_of calls) e1 = chunks_of calls).
Proof.
  intros Henter fileID left.
  pose proof (writeGlobalFileStream_enter _ _ _ _ _ _ _ Henter) as Hcm.
  destruct (with_entered _ (write_block calls) _ _ _ _ Hcm) as [Hw Hr].
  fold left in Hw, Hr. fold fileID in Hw, Hr.
  unfold write_block in Hw, Hr. cbn [fst] in Hw, Hr.
  rewrite Hw. unfold external_exit. rewrite heap_external.
  rewrite calls_as_chunks. rewrite calls_as_chunks in Hr.
  match goal with |- context [for_ _ _ ?w0] => set (w1 := w0) in * end.
  destruct (writes_tracked_stream backing fileID (chunks_of calls) w1
              {| fileStoreID := key; size := 0 |}) as (Hl & Hframe & Hok).
  { subst w1. simpl. apply lookup_insert_eq. }
  split; [|split].
  - rewrite Hl. done.
  - intros l Hne. rewrite Hframe by done. subst w1. simpl.
    by rewrite lookup_insert_ne.
  - intros Hleft. apply Hok. by apply Hr.
Qed.
End WriteGlobalFileStreamScope.

Lemma accepted_prefix {E} (backing : Stream E) chunks e :
  accepted backing chunks e `prefix_of` chunks.
Proof.
  revert e. induction chunks as [|d chunks IH]; intros e; simpl.
  - done.
  - destruct (stream_write backing d e) as [e' [[]|x]].
    + by apply prefix_cons.
    + apply prefix_nil.
Qed.

(** C6: when the job store opens a stream under key [key],
    [writeGlobalFileStream] yields a new FileID whose string value is [key]
    and whose size is 0; whatever writes the block makes to the yielded
    stream, on leaving the scope that same FileID still has string value
    [key] and its size is the summed length of the chunks the backing stream
    took, which is the length of all the data when the block ended without
    an exception. *)
Theorem writeGlobalFileStream_tracks_size {E R} (self : FileStore E R) (cleanup : bool)
    (w : world E) (e1 : E) (backing : Stream E) (key : string)
    (exit_ : option exn -> M E bool) :
  js_writeFileStream (jobStore self)
      (if negb cleanup then None else Some (jobStoreID (jobGraph self))) (ext w)
    = (e1, Return ((backing, key), exit_)) ->
  exists stream fileID exit',
    heap w !! fileID = None
    /\ snd (writeGlobalFileStream self cleanup w) = Return ((stream, fileID), exit')
    /\ heap (fst (writeGlobalFileStream self cleanup w)) !! fileID
       = Some {| fileStoreID := key; size := 0 |}
    /\ forall calls : list stream_call,
         let left := with_ (writeGlobalFileStream self cleanup) (write_block calls) w in
         heap (fst left) !! fileID
           = Some {| fileStoreID := key;
                     size := sum_len (accepted backing (chunks_of calls) e1) |}
         /\ (snd left = Return (Some tt) ->
               heap (fst left) !! fileID
               = Some {| fileStoreID := key; size := len (concat (chunks_of calls)) |}).
Proof.
  intros Henter.
  pose proof (writeGlobalFileStream_enter self cleanup w e1 backing key exit_ Henter) as Hcm.
  eexists _, (fresh (dom (heap w))), _.
  split; [apply fresh_loc_unused|].
  split; [rewrite Hcm; reflexivity|].
  split; [rewrite Hcm; simpl; apply lookup_insert_eq|].
  intros calls left.
  destruct (writeGlobalFileStream_scope self cleanup calls w e1 backing key exit_ Henter)
    as (Hsize & _ & Hall).
  fold left in Hsize, Hall. split; [done|].
  intros Hleft. rewrite Hsize, (Hall Hleft). by rewrite sum_len_concat.
Qed.

Lemma writeGlobalFileStream_tracks_size_witness :
  js_writeFileStream (jobStore toyFileStore)
      (if negb false then None else Some (jobStoreID (jobGraph toyFileStore)))
      (ext emptyWorld)
    = ([], Return ((sink, "files/no-job/file-0"%string), fun _ => ret false))
  /\ exists stream fileID exit',
    heap emptyWorld !! fileID = None
    /\ snd (writeGlobalFileStream toyFileStore false emptyWorld)
       = Return ((stream, fileID), exit')
    /\ heap (fst (writeGlobalFileStream toyFileStore false emptyWorld)) !! fileID
       = Some {| fileStoreID := "files/no-job/file-0"; size := 0 |}
    /\ forall calls : list stream_call,
         let left := with_ (writeGlobalFileStream toyFileStore false)
                           (write_block calls) emptyWorld in
         heap (fst left) !! fileID
           = Some {| fileStoreID := "files/no-job/file-0";
                     size := sum_len (accepted sink (chunks_of calls) []) |}
         /\ (snd left = Return (Some tt) ->
               heap (fst left) !! fileID
               = Some {| fileStoreID := "files/no-job/file-0";
                         size := len (concat (chunks_of calls)) |}).
Proof.
  split; [reflexivity|].
  apply (writeGlobalFileStream_tracks_size toyFileStore false emptyWorld
           [] sink "files/no-job/file-0" (fun _ => ret false)).
  reflexivity.
Defined.

(** Two FileIDs made one after the other are two objects, each with the
    string value and size it was given; what existed is unchanged. *)
Lemma FileID_new_twice {E} (k1 k2 : string) (s1 s2 : Z) (v : world E) :
  let made := (l1 <- FileID__new__ k1 s1 ;; l2 <- FileID__new__ k2 s2 ;; ret (l1, l2)) v in
  exists l1 l2,
    snd made = Return (l1, l2)
    /\ l1 <> l2
    /\ heap (fst made) !! l1 = Some {| fileStoreID := k1; size := s1 |}
    /\ heap (fst made) !! l2 = Some {| fileStoreID := k2; size := s2 |}
    /\ forall l f, heap v !! l = Some f -> heap (fst made) !! l = Some f.
Proof.
  cbv zeta. unfold bind, FileID__new__, ret. simpl.
  set (l1 := fresh (dom (heap v))).
  set (h1 := <[l1 := {| fileStoreID := k1; size := s1 |}]> (heap v)).
  set (l2 := fresh (dom h1)).
  assert (heap v !! l1 = None) as Hl1 by apply not_elem_of_dom, is_fresh.
  assert (h1 !! l2 = None) as Hl2 by apply not_elem_of_dom, is_fresh.
  assert (l1 <> l2) as Hne.
  { intros Heq. rewrite <- Heq in Hl2. subst h1. by rewrite lookup_insert_eq in Hl2. }
  exists l1, l2. split; [done|]. split; [done|].
  split; [subst h1; rewrite lookup_insert_ne by done; apply lookup_insert_eq|].
  split; [apply lookup_insert_eq|].
  intros l f Hl.
  assert (l1 <> l) as Hl1' by (intros Heq; rewrite Heq in Hl1; congruence).
  assert (h1 !! l = Some f) as Hh1 by (subst h1; by rewrite lookup_insert_ne).
  assert (l2 <> l) as Hl2' by (intros Heq; rewrite Heq in Hl2; congruence).
  by rewrite lookup_insert_ne.
Qed.

(** C9 (as the code has it): across a [writeGlobalFileStream] scope with any
    writes, every FileID that existed before keeps its string value and its
    size.  The FileID the scope yields is a new object; it keeps the key the
    job store gave, while its size is changed in place: 0 when yielded, and
    on leaving the scope exactly the summed length of the chunks the
    backing stream took, so a different size as soon as that sum is not 0.
    When the job store opens no stream, no FileID is made.  And
    construction checks nothing: two FileIDs with one key and any two sizes
    can be made side by side. *)
Theorem FileID_key_fixed_size_mutable {E R} (self : FileStore E R) (cleanup : bool)
    (calls : list stream_call) (w : world E) :
  let entered := writeGlobalFileStream self cleanup w in
  let left := with_ (writeGlobalFileStream self cleanup) (write_block calls) w in
  (forall l f, heap w !! l = Some f -> heap (fst left) !! l = Some f)
  /\ (let '(e1, opened) :=
        js_writeFileStream (jobStore self)
          (if negb cleanup then None else Some (jobStoreID (jobGraph self))) (ext w) in
      match opened with
      | Return ((backing, key), _) =>
          exists stream fileID exit',
            snd entered = Return ((stream, fileID), exit')
            /\ heap w !! fileID = None
            /\ heap (fst entered) !! fileID = Some {| fileStoreID := key; size := 0 |}
            /\ heap (fst left) !! fileID
               = Some {| fileStoreID := key;
                         size := sum_len (accepted backing (chunks_of calls) e1) |}
            /\ (sum_len (accepted backing (chunks_of calls) e1) <> 0 ->
                  heap (fst left) !! fileID <> heap (fst entered) !! fileID)
      | Raise x => snd entered = Raise x /\ heap (fst left) = heap w
      end)
  /\ (forall (k : string) (s1 s2 : Z) (v : world E),
        let made := (l1 <- FileID__new__ k s1 ;; l2 <- FileID__new__ k s2 ;; ret (l1, l2)) v in
        exists l1 l2,
          snd made = Return (l1, l2)
          /\ l1 <> l2
          /\ heap (fst made) !! l1 = Some {| fileStoreID := k; size := s1 |}
          /\ heap (fst made) !! l2 = Some {| fileStoreID := k; size := s2 |}).
Proof.
  intros entered left.
  destruct (js_writeFileStream (jobStore self)
              (if negb cleanup then None else Some (jobStoreID (jobGraph self))) (ext w))
    as [e1 [[[backing key] exit_]|x]] eqn:Henter.
  - destruct (writeGlobalFileStream_scope self cleanup calls w e1 backing key exit_ Henter)
      as (Hsize & Hframe & _).
    fold left in Hsize, Hframe.
    pose proof (writeGlobalFileStream_enter self cleanup w e1 backing key exit_ Henter) as Hcm.
    split; [|split].
    + intros l f Hl. rewrite Hframe; [done|].
      intros ->. rewrite fresh_loc_unused in Hl. done.
    + eexists _, (fresh (dom (heap w))), _. subst entered. rewrite Hcm.
      split; [reflexivity|]. split; [apply fresh_loc_unused|].
      split; [simpl; apply lookup_insert_eq|]. split; [exact Hsize|].
      intros Hsum. rewrite Hsize. simpl. rewrite lookup_insert_eq.
      intros [= Heq]. done.
    + intros k s1 s2 v.
      destruct (FileID_new_twice k k s1 s2 v) as (l1 & l2 & H1 & H2 & H3 & H4 & _).
      by exists l1, l2.
  - pose proof (writeGlobalFileStream_not_entered self cleanup w e1 x Henter) as Hcm.
    split; [|split].
    + intros l f Hl. subst left. rewrite (with_not_entered _ _ _ _ _ Hcm). done.
    + subst entered left. rewrite (with_not_entered _ _ _ _ _ Hcm). by rewrite Hcm.
    + intros k s1 s2 v.
      destruct (FileID_new_twice k k s1 s2 v) as (l1 & l2 & H1 & H2 & H3 & H4 & _).
      by exists l1, l2.
Qed.

(** C9 (as stated) fails: the FileID yielded by [writeGlobalFileStream] is
    constructed with size 0 and has size 3 once three bytes were written to
    the stream; and two FileIDs with one key and different sizes can be
    constructed side by side. *)
Lemma FileID_size_changes_in_place :
  let entered := writeGlobalFileStream toyFileStore false emptyWorld in
  let left := with_ (writeGlobalFileStream toyFileStore false)
                (write_block [CallWrite [Byte.x61; Byte.x62; Byte.x63]]) emptyWorld in
  (exists stream exit', snd entered = Return ((stream, 0%nat), exit'))
  /\ heap (fst entered) !! 0%nat
     = Some {| fileStoreID := "files/no-job/file-0"; size := 0 |}
  /\ heap (fst left) !! 0%nat
     = Some {| fileStoreID := "files/no-job/file-0"; size := 3 |}
  /\ (let two := fst ((FileID__new__ "k" 1 ;; FileID__new__ "k" 2) emptyWorld) in
      heap two !! 0%nat = Some {| fileStoreID := "k"; size := 1 |}
      /\ heap two !! 1%nat = Some {| fileStoreID := "k"; size := 2 |}).
Proof.
  cbv zeta. split; [eexists _, _; vm_compute; reflexivity|].
  repeat split; vm_compute; reflexivity.
Qed.

(** ** FileStore.importFile and FileStore.exportFile *)

(** C8 (as the code has it): [importFile] is the job store's [importFile]
    on the same URL and shared file name, result and effect; [exportFile]
    raises [NotImplementedError] and has no effect, whatever the job store
    is. *)
Theorem importFile_delegates_exportFile_raises {E R} (self : FileStore E R)
    (srcUrl : string) (sharedFileName : option string)
    (jobStoreFileID dstUrl : string) (w : world E) :
  importFile self srcUrl sharedFileName w
    = (set_ext (fst (js_importFile (jobStore self) srcUrl sharedFileName (ext w))) w,
       snd (js_importFile (jobStore self) srcUrl sharedFileName (ext w)))
  /\ exportFile self jobStoreFileID dstUrl w = (w, Raise NotImplementedError).
Proof.
  split; [|done].
  unfold importFile, external, lift.
  by destruct (js_importFile (jobStore self) srcUrl sharedFileName (ext w)).
Qed.

(** C8 (as stated) fails for [exportFile]: on a job store whose export
    succeeds and records the export, [FileStore.exportFile] raises and
    nothing is exported. *)
Lemma exportFile_does_not_delegate :
  external (js_exportFile (jobStore toyFileStore) "files/no-job/file-0" "file:///out/a")
           emptyWorld
    = ({| heap := ∅; ext := [("files/no-job/file-0", "file:///out/a")] |}, Return tt)
  /\ exportFile toyFileStore "files/no-job/file-0" "file:///out/a" emptyWorld
     = (emptyWorld, Raise NotImplementedError)
  /\ exportFile toyFileStore "files/no-job/file-0" "file:///out/a" emptyWorld
     <> external (js_exportFile (jobStore toyFileStore)
                    "files/no-job/file-0" "file:///out/a") emptyWorld.
Proof. repeat split. intros [= ]. Qed.

(** ** FileID as a string *)

(** C10: on a FileID, [==] and [hash] are the methods of [str], found past
    the class body of [FileID], which defines neither.  So two FileIDs are
    equal exactly when their keys are equal, whatever their sizes; a FileID
    equals a plain string, either way round, exactly when the string is its
    key; the hash of a FileID is the hash of its key, hence the same for
    two FileIDs with one key and for the plain string; the string value is
    the key; and no comparison with any string object depends on the
    size. *)
Theorem FileID_identity_is_key (str_hash : string -> Z)
    (is_ : pystr -> pystr -> bool) (id_hash : pystr -> Z)
    (k1 k2 : string) (s1 s2 : Z) :
  let a := StrFileID {| fileStoreID := k1; size := s1 |} in
  let b := StrFileID {| fileStoreID := k2; size := s2 |} in
  lookup_special class_FileID __eq__ = Some class_str
  /\ lookup_special class_FileID __hash__ = Some class_str
  /\ (py_eq is_ a b = true <-> k1 = k2)
  /\ (py_eq is_ a (Str k2) = true <-> k1 = k2)
  /\ (py_eq is_ (Str k2) a = true <-> k1 = k2)
  /\ py_hash str_hash id_hash a = str_hash k1
  /\ py_hash str_hash id_hash (Str k1) = str_hash k1
  /\ (k1 = k2 -> py_hash str_hash id_hash a = py_hash str_hash id_hash b)
  /\ str_value a = k1
  /\ forall x s,
       py_eq is_ a x = py_eq is_ (StrFileID {| fileStoreID := k1; size := s |}) x
       /\ py_eq is_ x a = py_eq is_ x (StrFileID {| fileStoreID := k1; size := s |}).
Proof.
  intros a b. subst a b. unfold py_eq, py_hash, str__eq__, str__hash__. simpl.
  rewrite !bool_decide_eq_true.
  split; [done|]. split; [done|]. split; [done|]. split; [done|].
  split; [split; congruence|]. split; [done|]. split; [done|].
  split; [by intros ->|]. split; [done|].
  intros x s. split; [done|]. by destruct x.
Qed.

(** ** FileStore._StateFile *)

Lemma length_append (a b : string) :
  String.length (a +:+ b) = (String.length a + String.length b)%nat.
Proof. induction a as [|c a IH]; simpl; [done|]. by rewrite IH. Qed.

Lemma tmp_name_differs (fileName : string) : fileName +:+ ".tmp" <> fileName.
Proof.
  intros Heq. apply (f_equal String.length) in Heq.
  rewrite length_append in Heq. simpl in Heq. lia.
Qed.

(** While the pickler's bytes go to the temporary file, every state of the
    files shows any other path as it was. *)
Lemma file_write_loop (tmp path : string) (files : gmap string bytes)
    (emitted : bytes) (w : fsys) (c : bytes) :
  tmp <> path ->
  now w !! tmp = Some c ->
  Forall (fun s => s !! path = files !! path) (now w :: past w) ->
  let r := for_ emitted (fun b => file_write tmp [b]) w in
  snd r = Return tt
  /\ now (fst r) !! tmp = Some (c ++ emitted)
  /\ Forall (fun s => s !! path = files !! path) (now (fst r) :: past (fst r)).
Proof.
  intros Hne. revert w c. induction emitted as [|b emitted IH]; intros w c Hc Hall; simpl.
  - by rewrite app_nil_r.
  - unfold bind. simpl.
    match goal with |- context [for_ emitted _ ?w1] => set (w' := w1) end.
    destruct (IH w' (c ++ [b])) as (Hr & Htmp & Hall').
    + subst w'. simpl. by rewrite lookup_alter_eq, Hc.
    + subst w'. simpl. constructor; [|done].
      rewrite lookup_alter_ne by done. by inversion Hall.
    + split; [done|]. split; [|done].
      rewrite Htmp. by rewrite <- app_assoc.
Qed.

(** C2: started on files [files], [_StateFile.write] takes the files through
    states in each of which [fileName] holds what it held before, until the
    last step; when the pickler succeeds, the state just before the last
    step already has the complete record in [fileName + '.tmp'], the last
    step (the rename) puts exactly that record at [fileName] and removes the
    temporary name, and the call returns; when the pickler raises, its
    exception comes out and [fileName] is never changed.  So in every state
    [fileName] reads as the previous content or as the complete new
    record. *)
Theorem StateFile_write_atomic {pyobj : Type}
    (dill_dump : gmap string pyobj -> bytes * option exn)
    (self : _StateFile pyobj) (fileName : string) (files : gmap string bytes) :
  let run := _StateFile_write dill_dump self fileName {| now := files; past := [] |} in
  let record := fst (dill_dump (__dict__ self)) in
  let failure := snd (dill_dump (__dict__ self)) in
  (forall s, s ∈ now (fst run) :: past (fst run) ->
     s !! fileName = files !! fileName
     \/ (failure = None /\ s !! fileName = Some record))
  /\ (failure = None ->
        snd run = Return tt
        /\ now (fst run) !! fileName = Some record
        /\ now (fst run) !! (fileName +:+ ".tmp") = None
        /\ exists last earlier,
             past (fst run) = last :: earlier
             /\ last !! (fileName +:+ ".tmp") = Some record
             /\ Forall (fun s => s !! fileName = files !! fileName) (last :: earlier))
  /\ (forall e, failure = Some e ->
        snd run = Raise e
        /\ Forall (fun s => s !! fileName = files !! fileName)
                  (now (fst run) :: past (fst run))).
Proof.
  intros run record failure.
  pose proof (tmp_name_differs fileName) as Hne.
  set (tmp := fileName +:+ ".tmp") in *.
  set (w1 := {| now := <[tmp := []]> files; past := [files] |}).
  set (loop := for_ record (fun b => file_write tmp [b]) w1).
  destruct (file_write_loop tmp fileName files record w1 [])
    as (Hr & Htmp & Hall); [done|apply lookup_insert_eq| |].
  { subst w1. simpl. repeat constructor. by rewrite lookup_insert_ne. }
  fold loop in Hr, Htmp, Hall. simpl in Htmp.
  assert (run = match failure with
                | Some e => (fst loop, Raise e)
                | None => os_rename tmp fileName (fst loop)
                end) as Hrun.
  { subst run loop record failure. unfold _StateFile_write, bind, open_wb, commit.
    fold tmp. destruct (dill_dump (__dict__ self)) as [emitted fl]. simpl in *.
    fold w1 in Hr |- *. destruct (for_ emitted _ w1) as [w2 r2]. simpl in *. subst r2.
    by destruct fl. }
  clearbody run. subst run. clearbody loop. destruct loop as [w2 r2]. simpl in *.
  destruct failure as [e|]; simpl.
  - split; [|split; [done|]].
    + intros s Hs. left. revert s Hs. by apply Forall_forall.
    + by intros e' [= <-].
  - unfold os_rename. rewrite Htmp. simpl.
    split; [|split; [|done]].
    + intros s [->|Hs]%elem_of_cons.
      * right. split; [done|]. apply lookup_insert_eq.
      * left. revert s Hs. by apply Forall_forall.
    + intros _. split; [done|]. split; [apply lookup_insert_eq|]. split.
      * rewrite lookup_insert_ne by done. apply lookup_delete_eq.
      * eauto.
Qed.

(** The record of pid 42 written over an older record: the states that
    [/var/toil/node/.jobState] goes through. *)
Example StateFile_write_states :
  let run := _StateFile_write toy_dump state42 stateFilePath
               {| now := {[ stateFilePath := [Byte.x80; Byte.x07] ]}; past := [] |} in
  snd run = Return tt
  /\ map (fun s => s !! stateFilePath) (rev (now (fst run) :: past (fst run)))
     = [Some [Byte.x80; Byte.x07]; Some [Byte.x80; Byte.x07];
        Some [Byte.x80; Byte.x07]; Some [Byte.x80; Byte.x07];
        Some [Byte.x80; Byte.x2a]]
  /\ map (fun s => s !! (stateFilePath +:+ ".tmp")) (rev (now (fst run) :: past (fst run)))
     = [None; Some []; Some [Byte.x80]; Some [Byte.x80; Byte.x2a]; None].
Proof. vm_compute. done. Qed.

(** C7 (as the code has it): [_load] changes nothing and returns an object
    only when the file is there, dill deserializes its content, and the
    result is a dict; the object's attributes are then exactly that dict,
    so no empty or default record is ever returned.  Nothing is wrapped:
    an absent file makes it raise the [IOError] (ENOENT) of [open],
    whatever the deserializer is; content that dill cannot deserialize
    makes it raise dill's own exception, unchanged, which therefore differs
    from the error of absence exactly when dill does not itself raise that
    [IOError]; a deserialized non-dict fails the assertion of
    [__init__]. *)
Theorem StateFile_load_propagates {pyobj : Type}
    (dill_load : bytes -> result pyobj)
    (as_dict : pyobj -> option (gmap string pyobj))
    (fileName : string) (w : fsys) :
  let loaded := _load dill_load as_dict fileName w in
  fst loaded = w
  /\ (forall st, snd loaded = Return st <->
        exists content infoDict,
          now w !! fileName = Some content
          /\ dill_load content = Return infoDict
          /\ as_dict infoDict = Some (__dict__ st))
  /\ (now w !! fileName = None -> snd loaded = Raise (IOError ENOENT))
  /\ (forall content e,
        now w !! fileName = Some content -> dill_load content = Raise e ->
        snd loaded = Raise e
        /\ (snd loaded = Raise (IOError ENOENT) <-> e = IOError ENOENT))
  /\ (forall content infoDict,
        now w !! fileName = Some content -> dill_load content = Return infoDict ->
        as_dict infoDict = None -> snd loaded = Raise AssertionError).
Proof.
  intros loaded. subst loaded.
  unfold _load, bind, open_rb, of_result, _StateFile__init__.
  destruct (now w !! fileName) as [content|] eqn:Hfile; simpl.
  - destruct (dill_load content) as [infoDict|e] eqn:Hload; simpl.
    + destruct (as_dict infoDict) as [d|] eqn:Hdict; simpl.
      * split; [done|]. split; [|repeat split; congruence].
        intros [d']. rewrite (right_id_L ∅ (∪)). split.
        -- intros [= ->]. eauto.
        -- intros (c & o & [= <-] & Ho & Hd). simpl in Hd. congruence.
      * split; [done|]. split; [|repeat split; congruence].
        intros st. split; [done|].
        intros (c & o & [= <-] & Ho & Hd). congruence.
    + split; [done|]. split; [|split; [done|split]].
      * intros st. split; [done|]. intros (c & o & [= <-] & Ho & Hd). congruence.
      * intros c e' [= <-] He'. assert (e' = e) as -> by congruence.
        split; [done|]. split; congruence.
      * intros c o [= <-] Ho. congruence.
  - split; [done|]. split; [|split; [done|split; intros; congruence]].
    intros st. split; [done|]. intros (c & o & Hc & _). done.
Qed.

(** C7 (as stated) fails.  For an absent file the failure is not a
    deserialization error: even with a deserializer that cannot fail,
    [_load] raises, and what it raises is the [IOError] (ENOENT) of
    [open].  And content that was damaged is not always refused: the
    record of pid 42 with one bit flipped loads, without any error, as the
    record of pid 43. *)
Lemma StateFile_load_no_DeserializationError :
  snd (_load lenient_load toy_as_dict stateFilePath {| now := ∅; past := [] |})
    = Raise (IOError ENOENT)
  /\ snd (_load toy_load toy_as_dict stateFilePath {| now := ∅; past := [] |})
     = Raise (IOError ENOENT)
  /\ ~ DeserializationError (IOError ENOENT)
  /\ fst (toy_dump (__dict__ state42)) = [Byte.x80; Byte.x2a]
  /\ damaged42 <> [Byte.x80; Byte.x2a]
  /\ snd (_load toy_load toy_as_dict stateFilePath
            {| now := {[ stateFilePath := damaged42 ]}; past := [] |})
     = Return {| __dict__ := {[ "pid"%string := TInt 43 ]} |}.
Proof.
  split; [vm_compute; reflexivity|]. split; [vm_compute; reflexivity|].
  split; [intros [Heof|[msg Hmsg]]; discriminate|].
  split; [vm_compute; reflexivity|]. split; [discriminate|].
  vm_compute. reflexivity.
Qed.

(** A record that was written is loaded back; a missing file, a truncated
    one and a pickled [None] are three different failures. *)
Example StateFile_load_cases :
  snd (_load toy_load toy_as_dict stateFilePath
         {| now := {[ stateFilePath := [Byte.x80; Byte.x2a] ]}; past := [] |})
    = Return state42
  /\ snd (_load toy_load toy_as_dict stateFilePath {| now := ∅; past := [] |})
     = Raise (IOError ENOENT)
  /\ snd (_load toy_load toy_as_dict stateFilePath
            {| now := {[ stateFilePath := [Byte.x80] ]}; past := [] |})
     = Raise EOFError
  /\ snd (_load toy_load toy_as_dict stateFilePath
            {| now := {[ stateFilePath := [Byte.x4e] ]}; past := [] |})
     = Raise AssertionError.
Proof.
  repeat split; vm_compute; reflexivity.
Qed.

(** ** DeferredFunction and FileStore._runDeferredFunctions *)

Section DeferredFacts.
Context {W pyobj moduleDescriptor : Type} `{!PyRuntime W pyobj moduleDescriptor}.
Implicit Types (w : W) (action : DeferredFunction.t moduleDescriptor).

(** A callable or argument that dill cannot serialize stops [create] at
    once. *)
Lemma create_unpicklable (function args kwargs : pyobj) e w :
  dill_dumps function = Raise e
  \/ (exists f, dill_dumps function = Return f /\ dill_dumps args = Raise e)
  \/ (exists f a, dill_dumps function = Return f /\ dill_dumps args = Return a
                  /\ dill_dumps kwargs = Raise e) ->
  DeferredFunction.create function args kwargs w = (w, Raise e).
Proof.
  unfold DeferredFunction.create, bind, of_result.
  intros [Hf|[(f & Hf & Ha)|(f & a & Hf & Ha & Hk)]].
  - by rewrite Hf.
  - by rewrite Hf, Ha.
  - by rewrite Hf, Ha, Hk.
Qed.

Lemma invoked_in_order_fun actions w outcomes1 w1 outcomes2 w2 :
  invoked_in_order actions w outcomes1 w1 ->
  invoked_in_order actions w outcomes2 w2 ->
  outcomes1 = outcomes2 /\ w1 = w2.
Proof.
  intros H1. revert outcomes2 w2.
  induction H1 as [w|action rest w w' outcome outcomes w1 Hinv _ IH];
    intros outcomes2 w2 H2; inversion H2; subst.
  - done.
  - match goal with
    | Hinv' : DeferredFunction.invoke action w = _ |- _ =>
        rewrite Hinv in Hinv'; injection Hinv' as <- <-
    end.
    match goal with
    | Hrest : invoked_in_order rest _ _ w2 |- _ => destruct (IH _ _ Hrest) as [-> ->]
    end.
    done.
Qed.

(** The loop, whatever it has collected so far. *)
Lemma runDeferredFunctions_loop_spec actions (failures : list string) w :
  exists outcomes w',
    invoked_in_order actions w outcomes w'
    /\ length outcomes = length actions
    /\ _runDeferredFunctions_loop actions failures w
       = (w', Return (failures ++ failed_names actions outcomes)).
Proof.
  revert failures w. induction actions as [|action rest IH]; intros failures w.
  - exists [], w. simpl. rewrite app_nil_r. repeat split. constructor.
  - cbn [_runDeferredFunctions_loop]. unfold bind, try_except_else.
    destruct (DeferredFunction.invoke action w) as [w1 [v|e]] eqn:Hinv.
    + destruct (IH failures w1) as (outcomes & w' & Hrun & Hlen & Hloop).
      exists (Return v :: outcomes), w'. split; [|split].
      * by econstructor.
      * simpl. by rewrite Hlen.
      * unfold ret. by rewrite Hloop.
    + set (w2 := logger_exception (DeferredFunction.__str__ action +:+ " failed.") e w1).
      destruct (IH (failures ++ [DeferredFunction.name action]) w2)
        as (outcomes & w' & Hrun & Hlen & Hloop).
      exists (Raise e :: outcomes), w'. split; [|split].
      * by econstructor.
      * simpl. by rewrite Hlen.
      * rewrite Hloop. simpl. by rewrite <- app_assoc.
Qed.
End DeferredFacts.

(** C4: [_runDeferredFunctions] never raises; it invokes every action of
    the sequence, in order, each in the world left by the ones before it
    (with the failure logged when one raised), and returns exactly the
    names of the actions whose invocation raised, in order.  In particular,
    of five actions of which only the third raises, all five are invoked
    and the result is the one name of the third. *)
Theorem runDeferredFunctions_resilient {W pyobj moduleDescriptor : Type}
    `{!PyRuntime W pyobj moduleDescriptor}
    (actions : list (DeferredFunction.t moduleDescriptor)) (w : W) :
  (exists outcomes w',
     invoked_in_order actions w outcomes w'
     /\ length outcomes = length actions
     /\ _runDeferredFunctions actions w = (w', Return (failed_names actions outcomes)))
  /\ (forall a1 a2 a3 a4 a5 v1 v2 e3 v4 v5 w',
        actions = [a1; a2; a3; a4; a5] ->
        invoked_in_order actions w [Return v1; Return v2; Raise e3; Return v4; Return v5] w' ->
        _runDeferredFunctions actions w = (w', Return [DeferredFunction.name a3])).
Proof.
  destruct (runDeferredFunctions_loop_spec actions [] w)
    as (outcomes & w' & Hrun & Hlen & Hloop).
  split; [by exists outcomes, w'|].
  intros a1 a2 a3 a4 a5 v1 v2 e3 v4 v5 w'' -> Hfive.
  destruct (invoked_in_order_fun _ _ _ _ _ _ Hrun Hfive) as [-> ->].
  unfold _runDeferredFunctions. by rewrite Hloop.
Qed.

(** Five deferred functions a, b, c, d, e of which c raises: all five are
    called, the failure of c is logged between c and d, and the result is
    the name of c. *)
Example runDeferredFunctions_five :
  _runDeferredFunctions
    [toy_deferred Byte.x61 false; toy_deferred Byte.x62 false;
     toy_deferred Byte.x63 true; toy_deferred Byte.x64 false;
     toy_deferred Byte.x65 false] []
  = ([Loaded "jobs"; Called "a"; Loaded "jobs"; Called "b";
      Loaded "jobs"; Called "c"; Logged "DeferredFunction(c, ...) failed.";
      Loaded "jobs"; Called "d"; Loaded "jobs"; Called "e"],
     Return ["c"%string]).
Proof. vm_compute. reflexivity. Qed.

(** C5: when dill serializes the callable and the two argument
    collections and deserializes them back, and the callable has a name and
    a module to describe, [create] returns at once a record holding the
    three serialized forms (and the name and module descriptor); [invoke]
    on that record, once the module was made loadable, is the call
    of [function] on [args] and [kwargs] itself: same returned value or same raised
    exception, same effect. *)
Theorem DeferredFunction_round_trip {W pyobj moduleDescriptor : Type}
    `{!PyRuntime W pyobj moduleDescriptor}
    (function args kwargs : pyobj) (f a k : bytes) (name modname : string)
    (module : moduleDescriptor) (w w1 : W) :
  dill_dumps function = Return f ->
  dill_dumps args = Return a ->
  dill_dumps kwargs = Return k ->
  dill_loads f = Return function ->
  dill_loads a = Return args ->
  dill_loads k = Return kwargs ->
  getattr__name__ function = Return name ->
  getattr__module__ function = Return modname ->
  forModule_globalize modname w = (w1, Return module) ->
  DeferredFunction.create function args kwargs w
    = (w1, Return (DeferredFunction.mk f a k name module))
  /\ forall w2 w3,
       makeLoadable module
         (logger_debug ("Running deferred function "
                        +:+ DeferredFunction.__str__ (DeferredFunction.mk f a k name module)
                        +:+ ".") w2) = (w3, Return tt) ->
       DeferredFunction.invoke (DeferredFunction.mk f a k name module) w2
       = py_call function args kwargs w3.
Proof.
  intros Hf Ha Hk Hf' Ha' Hk' Hname Hmod Hglob. split.
  - unfold DeferredFunction.create, bind, of_result.
    by rewrite Hf, Ha, Hk, Hname, Hmod, Hglob.
  - intros w2 w3 Hload. unfold DeferredFunction.invoke, bind, of_result.
    cbn [DeferredFunction.function DeferredFunction.args DeferredFunction.kwargs
         DeferredFunction.module].
    by rewrite Hload, Hf', Ha', Hk'.
Qed.

Lemma DeferredFunction_round_trip_witness :
  DeferredFunction.create (PFun Byte.x63 true) (PTuple [Byte.x07; Byte.x08]) PDict []
    = ([], Return (DeferredFunction.mk [Byte.x00; Byte.x63; Byte.x01]
                     [Byte.x01; Byte.x07; Byte.x08] [Byte.x02] "c" "jobs"))
  /\ forall w2 w3,
       makeLoadable "jobs"%string
         (logger_debug ("Running deferred function "
                        +:+ DeferredFunction.__str__
                              (DeferredFunction.mk [Byte.x00; Byte.x63; Byte.x01]
                                 [Byte.x01; Byte.x07; Byte.x08] [Byte.x02] "c" "jobs"%string)
                        +:+ ".") w2) = (w3, Return tt) ->
       DeferredFunction.invoke
         (DeferredFunction.mk [Byte.x00; Byte.x63; Byte.x01]
            [Byte.x01; Byte.x07; Byte.x08] [Byte.x02] "c" "jobs"%string) w2
       = py_call (PFun Byte.x63 true) (PTuple [Byte.x07; Byte.x08]) PDict w3.
Proof.
  apply (DeferredFunction_round_trip (PFun Byte.x63 true) (PTuple [Byte.x07; Byte.x08]) PDict
           [Byte.x00; Byte.x63; Byte.x01] [Byte.x01; Byte.x07; Byte.x08] [Byte.x02]
           "c" "jobs" "jobs" [] []); reflexivity.
Defined.

(** Created, then invoked: the count of the arguments comes back from a
    function that returns, the exception from one that raises; a callable
    without a name cannot be deferred. *)
Example DeferredFunction_cases :
  (df <- DeferredFunction.create (PFun Byte.x61 false) (PTuple [Byte.x07; Byte.x08]) PDict ;;
   DeferredFunction.invoke df) []
    = ([Loaded "jobs"; Called "a"], Return (PInt 2))
  /\ py_call (PFun Byte.x61 false) (PTuple [Byte.x07; Byte.x08]) PDict [Loaded "jobs"]
     = ([Loaded "jobs"; Called "a"], Return (PInt 2))
  /\ (df <- DeferredFunction.create (PFun Byte.x63 true) (PTuple []) PDict ;;
      DeferredFunction.invoke df) []
     = ([Loaded "jobs"; Called "c"], Raise (Exception "c"))
  /\ DeferredFunction.create PPartial (PTuple []) PDict ([] : list toy_event)
     = ([], Raise (AttributeError "__name__")).
Proof. repeat split; vm_compute; reflexivity. Qed.

(** * Further properties of the file *)

(** ** _StateFile: what a write leaves behind, and reading it back *)

Lemma file_write_loop_now (tmp : string) (emitted : bytes) (base : gmap string bytes)
    (c : bytes) (w : fsys) :
  now w = <[tmp := c]> base ->
  snd (for_ emitted (fun b => file_write tmp [b]) w) = Return tt
  /\ now (fst (for_ emitted (fun b => file_write tmp [b]) w)) = <[tmp := c ++ emitted]> base.
Proof.
  revert w c. induction emitted as [|b emitted IH]; intros w c Hnow; simpl.
  - by rewrite app_nil_r.
  - unfold bind. simpl.
    match goal with |- context [for_ emitted _ ?w1] => set (w' := w1) end.
    destruct (IH w' (c ++ [b])) as [Hr Hn].
    + subst w'. simpl. rewrite Hnow.
      apply (alter_insert_eq base tmp (fun content => content ++ [b])).
    + rewrite Hr, Hn. by rewrite <- app_assoc.
Qed.

Section StateFileFacts.
Context {pyobj : Type}.
Variable dill_dump : gmap string pyobj -> bytes * option exn.
Variable dill_load : bytes -> result pyobj.
Variable as_dict : pyobj -> option (gmap string pyobj).

(** The call as a whole, from any state of the files. *)
Lemma StateFile_write_run (self : _StateFile pyobj) (fileName : string) (w : fsys) :
  let emitted := fst (dill_dump (__dict__ self)) in
  exists w2,
    now w2 = <[fileName +:+ ".tmp" := emitted]> (now w)
    /\ _StateFile_write dill_dump self fileName w
       = match snd (dill_dump (__dict__ self)) with
         | Some e => (w2, Raise e)
         | None => ({| now := <[fileName := emitted]> (delete (fileName +:+ ".tmp") (now w));
                       past := now w2 :: past w2 |}, Return tt)
         end.
Proof.
  intros emitted. subst emitted.
  unfold _StateFile_write, bind, open_wb, commit.
  destruct (dill_dump (__dict__ self)) as [emitted failure]. cbn [fst snd].
  set (w1 := {| now := <[fileName +:+ ".tmp" := []]> (now w); past := now w :: past w |}).
  destruct (file_write_loop_now (fileName +:+ ".tmp") emitted (now w) [] w1 eq_refl)
    as [Hr Hn].
  simpl in Hn. destruct (for_ emitted _ w1) as [w2 r2]. simpl in Hr, Hn. subst r2.
  exists w2. split; [done|].
  destruct failure as [e|]; simpl; [done|].
  unfold os_rename, commit. rewrite Hn, lookup_insert_eq. simpl.
  by rewrite delete_insert_eq.
Qed.

(** [_load] looks at nothing but the content of the file it is given. *)
Lemma load_depends_on_file (fileName : string) (w w' : fsys) :
  now w !! fileName = now w' !! fileName ->
  snd (_load dill_load as_dict fileName w) = snd (_load dill_load as_dict fileName w').
Proof.
  intros Hsame. unfold _load, bind, open_rb. rewrite Hsame.
  destruct (now w' !! fileName) as [content|]; [|done].
  unfold of_result. destruct (dill_load content) as [o|e]; [|done].
  unfold _StateFile__init__. by destruct (as_dict o).
Qed.

(** The result and the files after [write], by the pickler's outcome. *)
Lemma StateFile_write_outcome (self : _StateFile pyobj) (fileName : string) (w : fsys) :
  let run := _StateFile_write dill_dump self fileName w in
  let emitted := fst (dill_dump (__dict__ self)) in
  match snd (dill_dump (__dict__ self)) with
  | None =>
      snd run = Return tt
      /\ now (fst run) = <[fileName := emitted]> (delete (fileName +:+ ".tmp") (now w))
  | Some e =>
      snd run = Raise e
      /\ now (fst run) = <[fileName +:+ ".tmp" := emitted]> (now w)
  end.
Proof.
  intros run emitted. subst run emitted.
  destruct (StateFile_write_run self fileName w) as (w2 & Hn & ->).
  by destruct (snd (dill_dump (__dict__ self))).
Qed.

(** X1: when the pickler succeeds, the files after [write] are the files
    before with the record at [fileName] and nothing at [fileName + '.tmp'];
    when it raises, they are the files before with the pickler's partial
    output left at [fileName + '.tmp'].  No other path is touched either
    way. *)
Theorem StateFile_write_final_files (self : _StateFile pyobj) (fileName : string) (w : fsys) :
  let run := _StateFile_write dill_dump self fileName w in
  let emitted := fst (dill_dump (__dict__ self)) in
  (forall path, path <> fileName -> path <> fileName +:+ ".tmp" ->
     now (fst run) !! path = now w !! path)
  /\ match snd (dill_dump (__dict__ self)) with
     | None =>
         snd run = Return tt
         /\ now (fst run) !! fileName = Some emitted
         /\ now (fst run) !! (fileName +:+ ".tmp") = None
     | Some e =>
         snd run = Raise e
         /\ now (fst run) !! fileName = now w !! fileName
         /\ now (fst run) !! (fileName +:+ ".tmp") = Some emitted
     end.
Proof.
  intros run emitted. subst run emitted.
  pose proof (StateFile_write_outcome self fileName w) as Hw. cbv zeta in Hw.
  pose proof (tmp_name_differs fileName) as Hne.
  destruct (snd (dill_dump (__dict__ self))) as [e|]; destruct Hw as [Hr Hn];
    rewrite Hr, Hn.
  - split; [intros path _ Htmp; by rewrite lookup_insert_ne|].
    split; [done|]. split; [by rewrite lookup_insert_ne|apply lookup_insert_eq].
  - split.
    + intros path Hp Htmp. rewrite lookup_insert_ne by done. by rewrite lookup_delete_ne.
    + split; [done|]. split; [apply lookup_insert_eq|].
      rewrite lookup_insert_ne by done. apply lookup_delete_eq.
Qed.

(** X2: a write whose pickler succeeds leaves the files as if it were the
    only write ever made: whatever an earlier [write] to the same name did,
    returned or raised half-way, nothing of it remains. *)
Theorem StateFile_write_overwrites (earlier self : _StateFile pyobj)
    (fileName : string) (w : fsys) :
  snd (dill_dump (__dict__ self)) = None ->
  now (fst (_StateFile_write dill_dump self fileName
              (fst (_StateFile_write dill_dump earlier fileName w))))
  = now (fst (_StateFile_write dill_dump self fileName w)).
Proof.
  intros Hok.
  pose proof (StateFile_write_outcome self fileName w) as H2.
  pose proof (StateFile_write_outcome self fileName
                (fst (_StateFile_write dill_dump earlier fileName w))) as H12.
  pose proof (StateFile_write_outcome earlier fileName w) as H1.
  cbv zeta in *. rewrite Hok in H2, H12.
  destruct H2 as [_ ->]. destruct H12 as [_ ->].
  pose proof (tmp_name_differs fileName) as Hne.
  destruct (snd (dill_dump (__dict__ earlier))) as [e|]; destruct H1 as [_ ->].
  - by rewrite delete_insert_eq.
  - rewrite delete_insert_ne by done. rewrite delete_delete_eq.
    by rewrite insert_insert_eq.
Qed.

(** X3: write, then load.  If dill restores from the record's bytes a dict
    equal to the object's attributes, [_load] after [write] returns the
    object that was written. *)
Theorem StateFile_write_load (self : _StateFile pyobj) (fileName : string) (w : fsys)
    (record : bytes) (infoDict : pyobj) :
  dill_dump (__dict__ self) = (record, None) ->
  dill_load record = Return infoDict ->
  as_dict infoDict = Some (__dict__ self) ->
  snd (_StateFile_write dill_dump self fileName w) = Return tt
  /\ snd (_load dill_load as_dict fileName
            (fst (_StateFile_write dill_dump self fileName w))) = Return self.
Proof.
  intros Hdump Hload Hdict.
  pose proof (StateFile_write_outcome self fileName w) as Hw.
  cbv zeta in Hw. rewrite Hdump in Hw. simpl in Hw. destruct Hw as [Hr Hn].
  split; [done|].
  unfold _load, bind, open_rb. rewrite Hn, lookup_insert_eq.
  unfold of_result. rewrite Hload. unfold _StateFile__init__. rewrite Hdict.
  unfold ret. simpl. rewrite (right_id_L ∅ (∪)). by destruct self.
Qed.

(** X4: a write whose pickler raises does not change what [_load] gives
    for the same name: the record before, or the failure before. *)
Theorem StateFile_failed_write_keeps_record (self : _StateFile pyobj)
    (fileName : string) (w : fsys) (e : exn) :
  snd (dill_dump (__dict__ self)) = Some e ->
  snd (_StateFile_write dill_dump self fileName w) = Raise e
  /\ snd (_load dill_load as_dict fileName
            (fst (_StateFile_write dill_dump self fileName w)))
     = snd (_load dill_load as_dict fileName w).
Proof.
  intros Hfail.
  pose proof (StateFile_write_outcome self fileName w) as Hw.
  cbv zeta in Hw. rewrite Hfail in Hw. destruct Hw as [Hr Hn].
  split; [done|]. apply load_depends_on_file.
  rewrite Hn. apply lookup_insert_ne, tmp_name_differs.
Qed.
End StateFileFacts.

Lemma StateFile_write_overwrites_witness :
  snd (toy_dump (__dict__ state42)) = None
  /\ now (fst (_StateFile_write toy_dump state42 stateFilePath
                 (fst (_StateFile_write toy_dump state300 stateFilePath nodeFiles))))
     = now (fst (_StateFile_write toy_dump state42 stateFilePath nodeFiles)).
Proof.
  split; [reflexivity|].
  apply (StateFile_write_overwrites toy_dump state300 state42 stateFilePath nodeFiles).
  reflexivity.
Defined.

Lemma StateFile_write_load_witness :
  toy_dump (__dict__ state42) = ([Byte.x80; Byte.x2a], None)
  /\ toy_load [Byte.x80; Byte.x2a] = Return (TState 42)
  /\ toy_as_dict (TState 42) = Some (__dict__ state42)
  /\ snd (_StateFile_write toy_dump state42 stateFilePath nodeFiles) = Return tt
  /\ snd (_load toy_load toy_as_dict stateFilePath
            (fst (_StateFile_write toy_dump state42 stateFilePath nodeFiles)))
     = Return state42.
Proof.
  split; [reflexivity|]. split; [reflexivity|]. split; [reflexivity|].
  apply (StateFile_write_load toy_dump toy_load toy_as_dict state42 stateFilePath nodeFiles
           [Byte.x80; Byte.x2a] (TState 42)); reflexivity.
Defined.

Lemma StateFile_failed_write_keeps_record_witness :
  snd (toy_dump (__dict__ state300)) = Some (PicklingError "pid out of range")
  /\ snd (_StateFile_write toy_dump state300 stateFilePath nodeFiles)
     = Raise (PicklingError "pid out of range")
  /\ snd (_load toy_load toy_as_dict stateFilePath
            (fst (_StateFile_write toy_dump state300 stateFilePath nodeFiles)))
     = snd (_load toy_load toy_as_dict stateFilePath nodeFiles).
Proof.
  split; [reflexivity|].
  apply (StateFile_failed_write_keeps_record toy_dump toy_load toy_as_dict
           state300 stateFilePath nodeFiles).
  reflexivity.
Defined.

(** ** Deferred functions: batches, failures, and what is never called *)

Section MoreDeferredFacts.
Context {W pyobj moduleDescriptor : Type} `{!PyRuntime W pyobj moduleDescriptor}.
Implicit Types (w : W) (action : DeferredFunction.t moduleDescriptor).

(** What the loop has collected is handed through untouched. *)
Lemma runDeferredFunctions_loop_acc actions (failures : list string) w :
  exists w' found,
    _runDeferredFunctions actions w = (w', Return found)
    /\ _runDeferredFunctions_loop actions failures w = (w', Return (failures ++ found)).
Proof.
  destruct (runDeferredFunctions_loop_spec actions [] w) as (o1 & w1 & Hr1 & _ & Hl1).
  destruct (runDeferredFunctions_loop_spec actions failures w) as (o2 & w2 & Hr2 & _ & Hl2).
  destruct (invoked_in_order_fun _ _ _ _ _ _ Hr1 Hr2) as [-> ->].
  exists w2, (failed_names actions o2). by split.
Qed.

Lemma runDeferredFunctions_loop_app actions1 actions2 (failures : list string) w :
  _runDeferredFunctions_loop (actions1 ++ actions2) failures w
  = (failures' <- _runDeferredFunctions_loop actions1 failures ;;
     _runDeferredFunctions_loop actions2 failures') w.
Proof.
  revert failures w. induction actions1 as [|action rest IH]; intros failures w.
  - done.
  - cbn [app _runDeferredFunctions_loop]. unfold bind.
    destruct (try_except_else _ _ _ w) as [w1 [failures'|e]]; [|done].
    rewrite IH. done.
Qed.

(** X5: running two batches one after the other, the second in the world
    the first left, is running their concatenation: same final world, and
    the failures of the first followed by those of the second. *)
Theorem runDeferredFunctions_app actions1 actions2 w :
  exists w1 failed1 w2 failed2,
    _runDeferredFunctions actions1 w = (w1, Return failed1)
    /\ _runDeferredFunctions actions2 w1 = (w2, Return failed2)
    /\ _runDeferredFunctions (actions1 ++ actions2) w = (w2, Return (failed1 ++ failed2)).
Proof.
  destruct (runDeferredFunctions_loop_acc actions1 [] w) as (w1 & f1 & Hr1 & _).
  destruct (runDeferredFunctions_loop_acc actions2 f1 w1) as (w2 & f2 & Hr2 & Hl2).
  exists w1, f1, w2, f2. split; [done|]. split; [done|].
  unfold _runDeferredFunctions at 1. rewrite runDeferredFunctions_loop_app.
  unfold bind. unfold _runDeferredFunctions in Hr1. by rewrite Hr1.
Qed.

Lemma failed_names_sublist actions (outcomes : list (result pyobj)) :
  failed_names actions outcomes `sublist_of` map (@DeferredFunction.name moduleDescriptor) actions.
Proof.
  revert outcomes. induction actions as [|action rest IH]; intros outcomes; simpl.
  - destruct outcomes as [|[]]; constructor.
  - destruct outcomes as [|[v|e] outcomes].
    + apply sublist_nil_l.
    + apply sublist_cons, IH.
    + apply sublist_skip, IH.
Qed.

(** X6: the names [_runDeferredFunctions] returns are names of the
    actions it was given, in the order of the actions, each action
    accounting for at most one of them. *)
Theorem runDeferredFunctions_names actions w :
  exists w' failed,
    _runDeferredFunctions actions w = (w', Return failed)
    /\ failed `sublist_of` map (@DeferredFunction.name moduleDescriptor) actions
    /\ (length failed <= length actions)%nat.
Proof.
  destruct (runDeferredFunctions_loop_spec actions [] w) as (o & w' & _ & _ & Hl).
  exists w', (failed_names actions o). split; [done|].
  pose proof (failed_names_sublist actions o) as Hsub. split; [done|].
  apply sublist_length in Hsub. by rewrite length_map in Hsub.
Qed.

(** The world in which [invoke] gets to deserialize: after the debug line
    and [makeLoadable]. *)
Lemma invoke_after_loading action w w1 :
  makeLoadable (DeferredFunction.module action)
    (logger_debug ("Running deferred function " +:+ DeferredFunction.__str__ action +:+ ".") w)
    = (w1, Return tt) ->
  DeferredFunction.invoke action w
  = (function <- of_result (dill_loads (DeferredFunction.function action)) ;;
     args <- of_result (dill_loads (DeferredFunction.args action)) ;;
     kwargs <- of_result (dill_loads (DeferredFunction.kwargs action)) ;;
     py_call function args kwargs) w1.
Proof.
  intros Hload. unfold DeferredFunction.invoke. unfold bind at 1 2. by rewrite Hload.
Qed.

(** X7: a deferred function whose serialized callable, positional or
    keyword arguments dill cannot restore is never called: in a batch of
    its own it is reported by name, and the world is the one [makeLoadable]
    left, plus the log of the failure. *)
Theorem runDeferredFunctions_corrupt action w w1 e :
  makeLoadable (DeferredFunction.module action)
    (logger_debug ("Running deferred function " +:+ DeferredFunction.__str__ action +:+ ".") w)
    = (w1, Return tt) ->
  dill_loads (DeferredFunction.function action) = Raise e
  \/ (exists f, dill_loads (DeferredFunction.function action) = Return f
                /\ dill_loads (DeferredFunction.args action) = Raise e)
  \/ (exists f a, dill_loads (DeferredFunction.function action) = Return f
                  /\ dill_loads (DeferredFunction.args action) = Return a
                  /\ dill_loads (DeferredFunction.kwargs action) = Raise e) ->
  DeferredFunction.invoke action w = (w1, Raise e)
  /\ _runDeferredFunctions [action] w
     = (logger_exception (DeferredFunction.__str__ action +:+ " failed.") e w1,
        Return [DeferredFunction.name action]).
Proof.
  intros Hload Hbad.
  assert (DeferredFunction.invoke action w = (w1, Raise e)) as Hinv.
  { rewrite (invoke_after_loading _ _ _ Hload). unfold bind, of_result.
    destruct Hbad as [Hf|[(f & Hf & Ha)|(f & a & Hf & Ha & Hk)]].
    - by rewrite Hf.
    - by rewrite Hf, Ha.
    - by rewrite Hf, Ha, Hk. }
  split; [done|].
  unfold _runDeferredFunctions. cbn [_runDeferredFunctions_loop].
  unfold bind, try_except_else. by rewrite Hinv.
Qed.

(** X8: [create] fails before anything is registered: if dill cannot
    serialize the callable or an argument collection, or the callable has
    no [__name__] or no [__module__], the exception comes out of [create]
    and the world is untouched (no module descriptor was asked for). *)
Theorem create_fails_early (function args kwargs : pyobj) e w :
  dill_dumps function = Raise e
  \/ (exists f, dill_dumps function = Return f /\ dill_dumps args = Raise e)
  \/ (exists f a, dill_dumps function = Return f /\ dill_dumps args = Return a
                  /\ dill_dumps kwargs = Raise e)
  \/ (exists f a k, dill_dumps function = Return f /\ dill_dumps args = Return a
                    /\ dill_dumps kwargs = Return k
                    /\ (getattr__name__ function = Raise e
                        \/ exists name, getattr__name__ function = Return name
                                        /\ getattr__module__ function = Raise e)) ->
  DeferredFunction.create function args kwargs w = (w, Raise e).
Proof.
  intros [Hf|[Ha|[Hk|(f & a & k & Hf & Ha & Hk & Hattr)]]].
  - apply create_unpicklable. auto.
  - apply create_unpicklable. auto.
  - apply create_unpicklable. auto.
  - unfold DeferredFunction.create, bind, of_result. rewrite Hf, Ha, Hk.
    destruct Hattr as [Hn|(name & Hn & Hm)].
    + by rewrite Hn.
    + by rewrite Hn, Hm.
Qed.

End MoreDeferredFacts.

Lemma runDeferredFunctions_corrupt_witness :
  makeLoadable (DeferredFunction.module corrupt_deferred)
    (logger_debug ("Running deferred function "
                   +:+ DeferredFunction.__str__ corrupt_deferred +:+ ".") [])
    = ([Loaded "jobs"], Return tt)
  /\ DeferredFunction.invoke corrupt_deferred []
     = ([Loaded "jobs"], Raise (UnpicklingError "invalid load key"))
  /\ _runDeferredFunctions [corrupt_deferred] []
     = (logger_exception (DeferredFunction.__str__ corrupt_deferred +:+ " failed.")
          (UnpicklingError "invalid load key") [Loaded "jobs"],
        Return [DeferredFunction.name corrupt_deferred]).
Proof.
  split; [reflexivity|].
  apply (runDeferredFunctions_corrupt corrupt_deferred [] [Loaded "jobs"]
           (UnpicklingError "invalid load key")).
  - reflexivity.
  - left. reflexivity.
Defined.

Lemma create_fails_early_witness :
  dill_dumps (PInt 1) = Raise (PicklingError "int")
  /\ DeferredFunction.create (PInt 1) (PTuple []) PDict ([] : list toy_event)
     = ([], Raise (PicklingError "int")).
Proof.
  split; [reflexivity|].
  apply (create_fails_early (PInt 1) (PTuple []) PDict (PicklingError "int") []).
  left. reflexivity.
Defined.


(** ** WriteWatchingStream: late and failing listeners *)

Lemma watched_S accepts k :
  onWrite (watched accepts k) (recording_listener k) = watched accepts (S k).
Proof.
  unfold watched. rewrite seq_S, map_app, foldl_app. done.
Qed.

Lemma writes_always_accepted k chunks log0 :
  for_ chunks (write (watched always_accepts k)) log0
  = (log0 ++ flat_map (chunk_events k) chunks, Return tt).
Proof.
  revert log0. induction chunks as [|d chunks IH]; intros log0; simpl.
  - by rewrite app_nil_r.
  - unfold bind. rewrite write_watched. unfold always_accepts at 1.
    rewrite IH. by rewrite <- app_assoc.
Qed.

Lemma notified_total_chunks_all i k chunks :
  notified_total i (flat_map (chunk_events k) chunks)
  = if bool_decide (i < k)%nat then sum_len chunks else 0.
Proof.
  case_bool_decide as Hi; [by apply notified_total_chunks|].
  induction chunks as [|d chunks IH]; [done|].
  cbn [flat_map]. rewrite notified_total_app, IH. unfold chunk_events. simpl.
  rewrite notified_total_listeners by apply NoDup_seq.
  rewrite bool_decide_eq_false_2; [done|]. rewrite elem_of_seq. lia.
Qed.

(** X10: a listener registered after some chunks were written is told only
    of the chunks written afterwards; the listeners registered before are
    told of all of them. *)
Theorem late_listener_misses_earlier_writes (k : nat) (before after : list bytes) :
  let s := watched always_accepts k in
  let s' := onWrite s (recording_listener k) in
  let run := (writelines s before ;; writelines s' after) [] in
  snd run = Return tt
  /\ fst run = flat_map (chunk_events k) before ++ flat_map (chunk_events (S k)) after
  /\ notified_total k (fst run) = sum_len after
  /\ forall i, (i < k)%nat -> notified_total i (fst run) = sum_len before + sum_len after.
Proof.
  intros s s' run. subst run s' s. rewrite watched_S.
  unfold bind, writelines. rewrite writes_always_accepted. simpl.
  rewrite writes_always_accepted. simpl.
  split; [done|]. split; [done|].
  split; [|intros i Hi]; rewrite notified_total_app, !notified_total_chunks_all.
  - rewrite bool_decide_eq_false_2 by lia. rewrite bool_decide_eq_true_2 by lia. lia.
  - rewrite !bool_decide_eq_true_2 by lia. done.
Qed.

(** X11: when a listener raises, the chunk has already gone to the backing
    stream and the listeners registered before it have been told; the
    listeners registered after it are not told, the exception comes out of
    [write], and [writelines] writes none of the chunks that follow. *)
Theorem raising_listener_cuts_notifications
    (accepts : list event -> bytes -> bool) (k : nat) (e : exn) (later : list nat)
    (data : bytes) (more : list bytes) (log : list event) :
  let s := foldl onWrite (onWrite (watched accepts k) (raising_listener e))
                 (map recording_listener later) in
  accepts log data = true ->
  write s data log = (log ++ chunk_events k data, Raise e)
  /\ writelines s (data :: more) log = (log ++ chunk_events k data, Raise e).
Proof.
  intros s Hacc.
  assert (write s data log = (log ++ chunk_events k data, Raise e)) as Hwrite.
  { subst s. unfold write.
    destruct (writeListeners_foldl_onWrite
                (onWrite (watched accepts k) (raising_listener e))
                (map recording_listener later)) as [-> ->].
    unfold watched. cbn [onWrite writeListeners backingStream].
    destruct (writeListeners_foldl_onWrite
                (WriteWatchingStream__init__ (recording_stream accepts))
                (map recording_listener (seq 0%nat k))) as [-> ->].
    simpl. unfold bind at 1. rewrite Hacc.
    rewrite <- app_assoc, for_app. unfold bind. rewrite notify_recording.
    simpl. unfold bind, raising_listener, raise. unfold chunk_events.
    by rewrite <- app_assoc. }
  split; [done|]. unfold writelines. cbn [for_]. unfold bind. by rewrite Hwrite.
Qed.

Lemma raising_listener_cuts_notifications_witness :
  always_accepts [] [Byte.x61] = true
  /\ write (foldl onWrite (onWrite (watched always_accepts 1) (raising_listener EOFError))
                  (map recording_listener [7%nat])) [Byte.x61] []
     = ([] ++ chunk_events 1 [Byte.x61], Raise EOFError)
  /\ writelines (foldl onWrite (onWrite (watched always_accepts 1) (raising_listener EOFError))
                       (map recording_listener [7%nat])) ([Byte.x61] :: [[Byte.x62]]) []
     = ([] ++ chunk_events 1 [Byte.x61], Raise EOFError).
Proof.
  split; [reflexivity|].
  apply (raising_listener_cuts_notifications always_accepts 1 EOFError [7%nat]
           [Byte.x61] [[Byte.x62]] []).
  reflexivity.
Defined.

(** ** writeGlobalFileStream and FileID.forPath: objects on the heap *)

Section MoreFileStoreFacts.
Context {E R : Type}.
Implicit Types (w : world E) (self : FileStore E R).

(** X12: when the job store cannot open a stream, the exception comes out
    of the [with] statement, the block is not run, and no FileID is made:
    the heap is as before. *)
Theorem writeGlobalFileStream_unavailable {B : Type} self cleanup w e1 x
    (body : WriteWatchingStream (world E) * loc -> M (world E) B) :
  js_writeFileStream (jobStore self) (name_hint self cleanup) (ext w) = (e1, Raise x) ->
  with_ (writeGlobalFileStream self cleanup) body w = (set_ext e1 w, Raise x)
  /\ heap (fst (with_ (writeGlobalFileStream self cleanup) body w)) = heap w.
Proof.
  intros Henter.
  pose proof (writeGlobalFileStream_not_entered self cleanup w e1 x Henter) as Hcm.
  rewrite (with_not_entered _ body _ _ _ Hcm). done.
Qed.

(** X13: two scopes, one after the other, yield two different FileIDs,
    each with the size of what was written to its own stream; this holds
    also when the job store hands out the same key twice. *)
Theorem writeGlobalFileStream_twice self cleanup1 cleanup2 calls1 calls2 w
    e1 backing1 key1 exit1 e2 backing2 key2 exit2 :
  let first := with_ (writeGlobalFileStream self cleanup1) (write_block calls1) w in
  let second := with_ (writeGlobalFileStream self cleanup2) (write_block calls2) (fst first) in
  js_writeFileStream (jobStore self) (name_hint self cleanup1) (ext w)
    = (e1, Return ((backing1, key1), exit1)) ->
  js_writeFileStream (jobStore self) (name_hint self cleanup2) (ext (fst first))
    = (e2, Return ((backing2, key2), exit2)) ->
  fresh (dom (heap w)) <> fresh (dom (heap (fst first)))
  /\ heap (fst second) !! fresh (dom (heap w))
     = Some {| fileStoreID := key1;
               size := sum_len (accepted backing1 (chunks_of calls1) e1) |}
  /\ heap (fst second) !! fresh (dom (heap (fst first)))
     = Some {| fileStoreID := key2;
               size := sum_len (accepted backing2 (chunks_of calls2) e2) |}.
Proof.
  intros first second H1 H2.
  destruct (writeGlobalFileStream_scope self cleanup1 calls1 w e1 backing1 key1 exit1 H1)
    as (Hsize1 & _ & _).
  destruct (writeGlobalFileStream_scope self cleanup2 calls2 (fst first)
              e2 backing2 key2 exit2 H2) as (Hsize2 & Hframe2 & _).
  fold first in Hsize1. fold second in Hsize2, Hframe2.
  assert (fresh (dom (heap w)) <> fresh (dom (heap (fst first)))) as Hne.
  { intros Heq. rewrite Heq in Hsize1. rewrite fresh_loc_unused in Hsize1. done. }
  split; [done|]. split; [|done].
  rewrite Hframe2 by done. done.
Qed.

(** X14: [FileID.forPath] makes a new FileID with the given string value
    and the size [os.stat] reports, and changes no FileID that exists; when
    [os.stat] raises, the exception comes out and no FileID is made. *)
Theorem FileID_forPath_outcomes (os_stat_st_size : string -> M E Z)
    (fileStoreID filePath : string) w :
  let made := FileID_forPath os_stat_st_size fileStoreID filePath w in
  (forall l f, heap w !! l = Some f -> heap (fst made) !! l = Some f)
  /\ match snd (os_stat_st_size filePath (ext w)) with
     | Return n =>
         exists l, snd made = Return l
           /\ heap w !! l = None
           /\ heap (fst made) !! l = Some {| fileStoreID := fileStoreID; size := n |}
     | Raise x => snd made = Raise x /\ heap (fst made) = heap w
     end.
Proof.
  intros made. subst made. unfold FileID_forPath, bind, external, lift.
  destruct (os_stat_st_size filePath (ext w)) as [e' [n|x]]; simpl.
  - split.
    + intros l f Hl. rewrite lookup_insert_ne; [done|].
      intros <-. pose proof (fresh_loc_unused w) as Hfresh. congruence.
    + eexists. split; [done|]. split; [apply fresh_loc_unused|].
      apply lookup_insert_eq.
  - done.
Qed.
End MoreFileStoreFacts.

Lemma writeGlobalFileStream_unavailable_witness :
  js_writeFileStream (jobStore downFileStore) (name_hint downFileStore true) (ext emptyWorld)
    = ([], Raise (IOError EIO))
  /\ with_ (writeGlobalFileStream downFileStore true)
           (write_block [CallWrite [Byte.x61]]) emptyWorld
     = (set_ext [] emptyWorld, Raise (IOError EIO))
  /\ heap (fst (with_ (writeGlobalFileStream downFileStore true)
                      (write_block [CallWrite [Byte.x61]]) emptyWorld))
     = heap emptyWorld.
Proof.
  split; [reflexivity|].
  apply (writeGlobalFileStream_unavailable downFileStore true emptyWorld [] (IOError EIO)
           (write_block [CallWrite [Byte.x61]])).
  reflexivity.
Defined.

Lemma writeGlobalFileStream_twice_witness :
  fresh (dom (heap emptyWorld))
  <> fresh (dom (heap (fst (with_ (writeGlobalFileStream toyFileStore false)
                              (write_block [CallWrite [Byte.x61; Byte.x62]]) emptyWorld))))
  /\ heap (fst (with_ (writeGlobalFileStream toyFileStore true)
                  (write_block [CallWritelines [[Byte.x63]; [Byte.x64; Byte.x65]]])
                  (fst (with_ (writeGlobalFileStream toyFileStore false)
                          (write_block [CallWrite [Byte.x61; Byte.x62]]) emptyWorld))))
       !! fresh (dom (heap emptyWorld))
     = Some {| fileStoreID := "files/no-job/file-0";
               size := sum_len (accepted sink
                                  (chunks_of [CallWrite [Byte.x61; Byte.x62]]) []) |}
  /\ heap (fst (with_ (writeGlobalFileStream toyFileStore true)
                  (write_block [CallWritelines [[Byte.x63]; [Byte.x64; Byte.x65]]])
                  (fst (with_ (writeGlobalFileStream toyFileStore false)
                          (write_block [CallWrite [Byte.x61; Byte.x62]]) emptyWorld))))
       !! fresh (dom (heap (fst (with_ (writeGlobalFileStream toyFileStore false)
                                   (write_block [CallWrite [Byte.x61; Byte.x62]])
                                   emptyWorld))))
     = Some {| fileStoreID := "files/no-job/file-0";
               size := sum_len (accepted sink
                                  (chunks_of [CallWritelines [[Byte.x63]; [Byte.x64; Byte.x65]]])
                                  []) |}.
Proof.
  apply (writeGlobalFileStream_twice toyFileStore false true
           [CallWrite [Byte.x61; Byte.x62]]
           [CallWritelines [[Byte.x63]; [Byte.x64; Byte.x65]]] emptyWorld
           [] sink "files/no-job/file-0" (fun _ => ret false)
           [] sink "files/no-job/file-0" (fun _ => ret false)); reflexivity.
Defined.

(** ** _pidExists, logToMaster and the temporary files *)

(** X15: for a pid that is not positive, [_pidExists] fails its assertion
    and sends no signal: the world is untouched whatever [os.kill] would
    do. *)
Theorem pidExists_nonpositive {W} (os_kill : Z -> Z -> M W unit) (pid : Z) (w : W) :
  pid <= 0 -> _pidExists os_kill pid w = (w, Raise AssertionError).
Proof.
  intros Hpid. unfold _pidExists, bind, assert_.
  destruct (Z.ltb_spec 0 pid) as [|_]; [lia|]. done.
Qed.

Lemma pidExists_nonpositive_witness :
  0 <= 0 /\ _pidExists os_kill_foreign 0 tt = (tt, Raise AssertionError).
Proof.
  split; [lia|]. apply (pidExists_nonpositive os_kill_foreign 0 tt). lia.
Defined.

(** X16: messages sent with [logToMaster] are kept in [loggingMessages] in
    the order sent, after the ones already there and with their levels, and
    each goes to the logger at its level with the prefix
    ['LOG-TO-MASTER: ']. *)
Theorem logToMaster_accumulates (messages : list (string * Z)) (w : logging_state) :
  let run := for_ messages (fun m => logToMaster (fst m) (snd m)) w in
  snd run = Return tt
  /\ loggingMessages (fst run)
     = loggingMessages w ++ map (fun m => LogMessage.mk (fst m) (snd m)) messages
  /\ logged (fst run)
     = logged w ++ map (fun m => (snd m, "LOG-TO-MASTER: " +:+ fst m)) messages.
Proof.
  cbv zeta. revert w. induction messages as [|m messages IH]; intros w; simpl.
  - by rewrite !app_nil_r.
  - unfold bind. simpl.
    match goal with |- context [for_ messages _ ?w1] => set (w' := w1) end.
    destruct (IH w') as (Hr & Hm & Hl). rewrite Hr, Hm, Hl. subst w'. simpl.
    by rewrite <- !app_assoc.
Qed.

Section TempFileFacts.
Context {E R : Type}.
Variable mkstemp_name : string -> string -> string -> gmap string bytes -> string.
Variable abspath : string -> string.
Implicit Types (self : FileStore E R) (files : gmap string bytes).

Lemma getLocalTempFile_run self files :
  getLocalTempFile mkstemp_name abspath self files
  = match files !! mkstemp_name "tmp" ".tmp" (localTempDir self) files with
    | None => (<[mkstemp_name "tmp" ".tmp" (localTempDir self) files := []]> files,
               Return (abspath (mkstemp_name "tmp" ".tmp" (localTempDir self) files)))
    | Some _ => (files, Raise (OSError EEXIST))
    end.
Proof.
  unfold getLocalTempFile, bind, tempfile_mkstemp.
  by destruct (files !! mkstemp_name "tmp" ".tmp" (localTempDir self) files).
Qed.

(** X17: [getLocalTempFileName] leaves the files exactly as it found them;
    the name it returns is the one mkstemp settled on, and no file has that
    name, before or after.  ([abspath] does not alter the name mkstemp
    returns, which lies under the absolute [localTempDir].) *)
Theorem getLocalTempFileName_leaves_no_file self files name :
  abspath (mkstemp_name "tmp" ".tmp" (localTempDir self) files)
    = mkstemp_name "tmp" ".tmp" (localTempDir self) files ->
  snd (getLocalTempFileName mkstemp_name abspath self files) = Return name ->
  name = mkstemp_name "tmp" ".tmp" (localTempDir self) files
  /\ files !! name = None
  /\ fst (getLocalTempFileName mkstemp_name abspath self files) = files.
Proof.
  intros Habs. unfold getLocalTempFileName, bind. rewrite getLocalTempFile_run.
  destruct (files !! mkstemp_name _ _ _ files) eqn:Hfree; [done|].
  rewrite Habs. unfold os_remove. rewrite lookup_insert_eq. simpl.
  intros [= <-]. split; [done|]. split; [done|]. by apply delete_insert_id.
Qed.

(** X18: two temporary files made one after the other have different
    paths; both exist, empty, next to the files that were there. *)
Theorem getLocalTempFile_twice_distinct self files files' p1 p2 :
  (forall fs, abspath (mkstemp_name "tmp" ".tmp" (localTempDir self) fs)
              = mkstemp_name "tmp" ".tmp" (localTempDir self) fs) ->
  (p1 <- getLocalTempFile mkstemp_name abspath self ;;
   p2 <- getLocalTempFile mkstemp_name abspath self ;;
   ret (p1, p2)) files = (files', Return (p1, p2)) ->
  p1 <> p2
  /\ files !! p1 = None /\ files !! p2 = None
  /\ files' = <[p2 := []]> (<[p1 := []]> files).
Proof.
  intros Habs. unfold bind. rewrite getLocalTempFile_run.
  destruct (files !! mkstemp_name _ _ _ files) eqn:Hfree1; [done|].
  rewrite getLocalTempFile_run.
  destruct (<[_ := []]> files !! mkstemp_name _ _ _ (<[_ := []]> files)) eqn:Hfree2; [done|].
  rewrite !Habs. unfold ret. intros [= <- <- <-].
  assert (mkstemp_name "tmp" ".tmp" (localTempDir self) files
          <> mkstemp_name "tmp" ".tmp" (localTempDir self)
               (<[mkstemp_name "tmp" ".tmp" (localTempDir self) files := []]> files)) as Hne.
  { intros Heq. rewrite <- Heq in Hfree2. by rewrite lookup_insert_eq in Hfree2. }
  split; [done|]. split; [done|]. split; [|done].
  by rewrite lookup_insert_ne in Hfree2.
Qed.
End TempFileFacts.

Lemma getLocalTempFileName_leaves_no_file_witness :
  id (two_name_mkstemp "tmp" ".tmp" (localTempDir toyFileStore) ∅)
    = two_name_mkstemp "tmp" ".tmp" (localTempDir toyFileStore) ∅
  /\ snd (getLocalTempFileName two_name_mkstemp id toyFileStore ∅)
     = Return "/tmp/toil/t0/tmpa.tmp"%string
  /\ "/tmp/toil/t0/tmpa.tmp"%string
     = two_name_mkstemp "tmp" ".tmp" (localTempDir toyFileStore) ∅
  /\ (∅ : gmap string bytes) !! "/tmp/toil/t0/tmpa.tmp"%string = None
  /\ fst (getLocalTempFileName two_name_mkstemp id toyFileStore ∅) = ∅.
Proof.
  split; [reflexivity|]. split; [vm_compute; reflexivity|].
  apply (getLocalTempFileName_leaves_no_file two_name_mkstemp id toyFileStore ∅
           "/tmp/toil/t0/tmpa.tmp").
  - reflexivity.
  - vm_compute. reflexivity.
Defined.

Lemma getLocalTempFile_twice_distinct_witness :
  "/tmp/toil/t0/tmpa.tmp"%string <> "/tmp/toil/t0/tmpb.tmp"%string
  /\ (∅ : gmap string bytes) !! "/tmp/toil/t0/tmpa.tmp"%string = None
  /\ (∅ : gmap string bytes) !! "/tmp/toil/t0/tmpb.tmp"%string = None
  /\ <[ "/tmp/toil/t0/tmpb.tmp"%string := [] ]> (<[ "/tmp/toil/t0/tmpa.tmp"%string := [] ]> ∅)
     = <[ "/tmp/toil/t0/tmpb.tmp"%string := [] ]>
         (<[ "/tmp/toil/t0/tmpa.tmp"%string := [] ]> (∅ : gmap string bytes)).
Proof.
  apply (getLocalTempFile_twice_distinct two_name_mkstemp id toyFileStore ∅
           (<[ "/tmp/toil/t0/tmpb.tmp"%string := [] ]>
              (<[ "/tmp/toil/t0/tmpa.tmp"%string := [] ]> ∅))
           "/tmp/toil/t0/tmpa.tmp" "/tmp/toil/t0/tmpb.tmp").
  - intros fs. reflexivity.
  - vm_compute. reflexivity.
Defined.

(** ** Grouping of chunks *)

(** X19: on any stream, with any listeners, how the chunks are grouped
    into [write] and [writelines] calls makes no difference: two sequences
    of calls that pass the same chunks in the same order have the same
    result and the same effect. *)
Theorem chunk_grouping_irrelevant {W} (s : WriteWatchingStream W)
    (calls1 calls2 : list stream_call) (w : W) :
  chunks_of calls1 = chunks_of calls2 ->
  for_ calls1 (call_stream s) w = for_ calls2 (call_stream s) w.
Proof.
  intros Hsame. rewrite !calls_as_chunks. by rewrite Hsame.
Qed.

Lemma chunk_grouping_irrelevant_witness :
  chunks_of [CallWritelines [[Byte.x61]; [Byte.x62]]]
    = chunks_of [CallWrite [Byte.x61]; CallWrite [Byte.x62]]
  /\ for_ [CallWritelines [[Byte.x61]; [Byte.x62]]]
          (call_stream (watched always_accepts 2)) []
     = for_ [CallWrite [Byte.x61]; CallWrite [Byte.x62]]
            (call_stream (watched always_accepts 2)) [].
Proof.
  split; [reflexivity|].
  apply (chunk_grouping_irrelevant (watched always_accepts 2)
           [CallWritelines [[Byte.x61]; [Byte.x62]]]
           [CallWrite [Byte.x61]; CallWrite [Byte.x62]] []).
  reflexivity.
Defined.
